(** * Playback and playlist controller of the music browser (src/main.py)

    A shallow embedding of the event handlers of [MusicPlayerWindow]: the
    playlist and its current index, next/previous navigation under the
    shuffle and repeat toggles, the seek slider with its [is_seeking] flag,
    and the commands the window sends to the media player.

    Python values are modelled as the code has them: [int] is [Z], [float]
    is an IEEE-754 binary64 number ([spec_float] with [prec = 53] and
    [emax = 1024], rounding to nearest even), [str] is [string].  A handler
    is a computation in a state-and-exception monad over the window. *)

From Stdlib Require Import Floats.SpecFloat.
From Stdlib Require Import ZArith List String Ascii Bool Lia.
From Stdlib Require Import DecimalString.
Import ListNotations.

Local Open Scope string_scope.
Local Open Scope Z_scope.

(** ** Exceptions and results *)

Inductive exn : Type :=
| ZeroDivisionError
| OverflowError
| ValueError
| IndexError
| OSError.

Inductive result (A : Type) : Type :=
| Ok (a : A)
| Raise (e : exn).

Arguments Ok {A} a.
Arguments Raise {A} e.

Definition rbind {A B : Type} (r : result A) (k : A -> result B) : result B :=
  match r with
  | Ok a => k a
  | Raise e => Raise e
  end.

(** ** Python numbers *)

Module Py.

Definition prec : Z := 53.
Definition emax : Z := 1024.

(** A Python [float]. *)
Definition float : Type := spec_float.

(** The exact value of an [int], as an unrounded binary number. *)
Definition exact (n : Z) : float :=
  match n with
  | Z0 => S754_zero false
  | Zpos p => S754_finite false p 0
  | Zneg p => S754_finite true p 0
  end.

Definition is_inf (x : float) : bool :=
  match x with
  | S754_infinity _ => true
  | _ => false
  end.

Definition is_zero (x : float) : bool :=
  match x with
  | S754_zero _ => true
  | _ => false
  end.

(** [float(n)], the conversion applied to an [int] operand that meets a
    [float]: correctly rounded, [OverflowError] when out of range. *)
Definition float_of_int (n : Z) : result float :=
  let x := binary_normalize prec emax n 0 false in
  if is_inf x then Raise OverflowError else Ok x.

(** [a / b] on two [int]s: the correctly rounded quotient. *)
Definition int_truediv (a b : Z) : result float :=
  if b =? 0 then Raise ZeroDivisionError
  else
    let q := SFdiv prec emax (exact a) (exact b) in
    if is_inf q then Raise OverflowError else Ok q.

(** [x / y] on two [float]s. *)
Definition float_truediv (x y : float) : result float :=
  if is_zero y then Raise ZeroDivisionError else Ok (SFdiv prec emax x y).

(** [x * y] on two [float]s (overflow gives an infinity, no exception). *)
Definition float_mul (x y : float) : float := SFmul prec emax x y.

(** [int(x)]: truncation toward zero. *)
Definition int_of_float (x : float) : result Z :=
  match x with
  | S754_zero _ => Ok 0
  | S754_infinity _ => Raise OverflowError
  | S754_nan => Raise ValueError
  | S754_finite s m e =>
      let a := if 0 <=? e then Z.shiftl (Zpos m) e
               else Z.shiftr (Zpos m) (- e) in
      Ok (if s then - a else a)
  end.

(** The literals [100.0], [0.0] and [1.0]. *)
Definition f100 : float := binary_normalize prec emax 100 0 false.
Definition f0 : float := S754_zero false.
Definition f1 : float := binary_normalize prec emax 1 0 false.

(** [int((a / b) * c)] on three [int]s, as the seek code writes it. *)
Definition int_scale (a b c : Z) : result Z :=
  match int_truediv a b with
  | Raise e => Raise e
  | Ok q =>
      match float_of_int c with
      | Raise e => Raise e
      | Ok f => int_of_float (float_mul q f)
      end
  end.

(** [n / y] for an [int] over a [float], as in [value / 100.0]. *)
Definition int_div_float (n : Z) (y : float) : result float :=
  match float_of_int n with
  | Raise e => Raise e
  | Ok x => float_truediv x y
  end.


End Py.

(** ** Strings *)

Notation "'let?' x := c 'in' k" := (rbind c (fun x => k))
  (at level 10, x name, c at level 100, k at level 200).

(** Decimal digits of a natural number, as [str(n)] prints them. *)
Definition str_of_N (n : N) : string := NilZero.string_of_uint (N.to_uint n).

(** The format [{z:02d}]: sign-aware zero padding to width two. *)
Definition fmt_02d (z : Z) : string :=
  let d := str_of_N (Z.abs_N z) in
  if z <? 0 then "-" ++ d
  else if (String.length d <? 2)%nat then "0" ++ d else d.

Definition lower_ascii (c : ascii) : ascii :=
  let n := nat_of_ascii c in
  if ((65 <=? n) && (n <=? 90))%nat then ascii_of_nat (n + 32) else c.

(** [s.lower()] on the ASCII letters, the only ones the extensions use. *)
Fixpoint lower (s : string) : string :=
  match s with
  | EmptyString => EmptyString
  | String c r => String (lower_ascii c) (lower r)
  end.

(** [Path(s).name], the last component of a path string, with ["/"] as
    the separator (a POSIX system): what follows its last ["/"]. *)
Fixpoint basename (s : string) : string :=
  match s with
  | EmptyString => EmptyString
  | String c r =>
      if Ascii.eqb c "/" then basename r
      else if existsb (Ascii.eqb "/") (list_ascii_of_string r) then basename r
      else s
  end.

(** ** Utilities of the module *)

Definition SUPPORTED_EXTS : list string :=
  [".mp3"; ".wav"; ".flac"; ".ogg"; ".m4a"].

(** [format_ms]: mm:ss for milliseconds. *)
Definition format_ms (ms : Z) : result string :=
  if ms <? 0 then Ok "--:--"
  else
    let? q := Py.int_truediv ms 1000 in
    let? s := Py.int_of_float q in
    let m := s / 60 in
    let s := s mod 60 in
    Ok (fmt_02d m ++ ":" ++ fmt_02d s).

(** ** The Qt objects the window talks to

    Qt itself is outside the repository.  Each object is modelled by what
    the handlers read from it and by the calls they make on it. *)

Inductive PlaybackState : Type :=
| StoppedState
| PlayingState
| PausedState.

Definition PlaybackState_eqb (a b : PlaybackState) : bool :=
  match a, b with
  | StoppedState, StoppedState => true
  | PlayingState, PlayingState => true
  | PausedState, PausedState => true
  | _, _ => false
  end.

(** A [QUrl]: the empty URL a fresh player has, or one made by
    [QUrl.fromLocalFile]. *)
Inductive QUrl : Type :=
| EmptyUrl
| fromLocalFile (file_path : string).

Definition isLocalFile (u : QUrl) : bool :=
  match u with
  | EmptyUrl => false
  | fromLocalFile _ => true
  end.

(** What the getters of the [QMediaPlayer] currently answer. *)
Record QMediaPlayer : Type := {
  source : QUrl;
  playbackState : PlaybackState;
  position : Z;
  duration : Z
}.

(** The commands the window sends to the player. *)
Inductive Command : Type :=
| player_setSource (url : QUrl)
| player_play
| player_pause
| player_stop
| player_setPosition (ms : Z).

Inductive Icon : Type :=
| SP_MediaPlay
| SP_MediaPause.

(** An entry of the song list: its text and its [Qt.UserRole] data. *)
Record QListWidgetItem : Type := {
  text : string;
  data : option string
}.

Record QListWidget : Type := {
  items : list QListWidgetItem;
  currentRow : Z
}.

(** A directory entry as [path.iterdir()] yields it, with the attributes
    [load_directory] reads: [str(p)], [p.name], [p.suffix], [p.is_file()]. *)
Record Path : Type := {
  path_str : string;
  path_name : string;
  path_suffix : string;
  path_is_file : bool
}.

(** ** The window

    The attributes of [MusicPlayerWindow] that the handlers below read or
    write.  [player_calls] and [audio_calls] record, oldest first, the
    commands sent to the player and the gains passed to
    [audio_out.setVolume].  The cover pixmap and the list icons are drawing
    only and are left out. *)
Record Window : Type := {
  playlist_title : string;
  song_list : QListWidget;
  play_btn : Icon;
  shuffle_btn : bool;
  repeat_btn : bool;
  time_label : string;
  seek_slider : Z;
  duration_label : string;
  status : option (string * Z);
  player : QMediaPlayer;
  player_calls : list Command;
  audio_calls : list Py.float;
  current_playlist : list string;
  current_index : Z;
  is_seeking : bool
}.

Definition set_playlist_title (v : string) (w : Window) : Window :=
  Build_Window v (song_list w) (play_btn w) (shuffle_btn w) (repeat_btn w)
    (time_label w) (seek_slider w) (duration_label w) (status w) (player w)
    (player_calls w) (audio_calls w) (current_playlist w) (current_index w)
    (is_seeking w).

Definition set_song_list (v : QListWidget) (w : Window) : Window :=
  Build_Window (playlist_title w) v (play_btn w) (shuffle_btn w) (repeat_btn w)
    (time_label w) (seek_slider w) (duration_label w) (status w) (player w)
    (player_calls w) (audio_calls w) (current_playlist w) (current_index w)
    (is_seeking w).

Definition set_play_btn (v : Icon) (w : Window) : Window :=
  Build_Window (playlist_title w) (song_list w) v (shuffle_btn w) (repeat_btn w)
    (time_label w) (seek_slider w) (duration_label w) (status w) (player w)
    (player_calls w) (audio_calls w) (current_playlist w) (current_index w)
    (is_seeking w).

Definition set_time_label (v : string) (w : Window) : Window :=
  Build_Window (playlist_title w) (song_list w) (play_btn w) (shuffle_btn w)
    (repeat_btn w) v (seek_slider w) (duration_label w) (status w) (player w)
    (player_calls w) (audio_calls w) (current_playlist w) (current_index w)
    (is_seeking w).

Definition set_seek_slider (v : Z) (w : Window) : Window :=
  Build_Window (playlist_title w) (song_list w) (play_btn w) (shuffle_btn w)
    (repeat_btn w) (time_label w) v (duration_label w) (status w) (player w)
    (player_calls w) (audio_calls w) (current_playlist w) (current_index w)
    (is_seeking w).

Definition set_duration_label (v : string) (w : Window) : Window :=
  Build_Window (playlist_title w) (song_list w) (play_btn w) (shuffle_btn w)
    (repeat_btn w) (time_label w) (seek_slider w) v (status w) (player w)
    (player_calls w) (audio_calls w) (current_playlist w) (current_index w)
    (is_seeking w).

Definition set_status (v : option (string * Z)) (w : Window) : Window :=
  Build_Window (playlist_title w) (song_list w) (play_btn w) (shuffle_btn w)
    (repeat_btn w) (time_label w) (seek_slider w) (duration_label w) v
    (player w) (player_calls w) (audio_calls w) (current_playlist w)
    (current_index w) (is_seeking w).

Definition set_player (v : QMediaPlayer) (w : Window) : Window :=
  Build_Window (playlist_title w) (song_list w) (play_btn w) (shuffle_btn w)
    (repeat_btn w) (time_label w) (seek_slider w) (duration_label w) (status w)
    v (player_calls w) (audio_calls w) (current_playlist w) (current_index w)
    (is_seeking w).

Definition set_player_calls (v : list Command) (w : Window) : Window :=
  Build_Window (playlist_title w) (song_list w) (play_btn w) (shuffle_btn w)
    (repeat_btn w) (time_label w) (seek_slider w) (duration_label w) (status w)
    (player w) v (audio_calls w) (current_playlist w) (current_index w)
    (is_seeking w).

Definition set_audio_calls (v : list Py.float) (w : Window) : Window :=
  Build_Window (playlist_title w) (song_list w) (play_btn w) (shuffle_btn w)
    (repeat_btn w) (time_label w) (seek_slider w) (duration_label w) (status w)
    (player w) (player_calls w) v (current_playlist w) (current_index w)
    (is_seeking w).

Definition set_current_playlist (v : list string) (w : Window) : Window :=
  Build_Window (playlist_title w) (song_list w) (play_btn w) (shuffle_btn w)
    (repeat_btn w) (time_label w) (seek_slider w) (duration_label w) (status w)
    (player w) (player_calls w) (audio_calls w) v (current_index w)
    (is_seeking w).

Definition set_current_index (v : Z) (w : Window) : Window :=
  Build_Window (playlist_title w) (song_list w) (play_btn w) (shuffle_btn w)
    (repeat_btn w) (time_label w) (seek_slider w) (duration_label w) (status w)
    (player w) (player_calls w) (audio_calls w) (current_playlist w) v
    (is_seeking w).

Definition set_is_seeking (v : bool) (w : Window) : Window :=
  Build_Window (playlist_title w) (song_list w) (play_btn w) (shuffle_btn w)
    (repeat_btn w) (time_label w) (seek_slider w) (duration_label w) (status w)
    (player w) (player_calls w) (audio_calls w) (current_playlist w)
    (current_index w) v.

(** ** Handlers as computations

    A handler runs on the window, may change it, and either returns or
    raises.  What was written before an exception stays written. *)
Definition M (A : Type) : Type := Window -> result A * Window.

Definition ret {A : Type} (a : A) : M A := fun w => (Ok a, w).

Definition bind {A B : Type} (c : M A) (k : A -> M B) : M B :=
  fun w =>
    match c w with
    | (Ok a, w') => k a w'
    | (Raise e, w') => (Raise e, w')
    end.

Definition lift {A : Type} (r : result A) : M A := fun w => (r, w).

Definition read {A : Type} (f : Window -> A) : M A := fun w => (Ok (f w), w).

Definition write (f : Window -> Window) : M unit := fun w => (Ok tt, f w).

Notation "x <- c ;; k" := (bind c (fun x => k))
  (at level 61, c at next level, right associativity).
Notation "c ;; k" := (bind c (fun _ => k))
  (at level 61, right associativity).

(** The window a computation leaves behind. *)
Definition exec {A : Type} (c : M A) (w : Window) : Window := snd (c w).

(** [len(l)] and [l[i]] on a Python list. *)
Definition len {A : Type} (l : list A) : Z := Z.of_nat (List.length l).

Definition getitem {A : Type} (l : list A) (i : Z) : result A :=
  let j := if i <? 0 then i + len l else i in
  if j <? 0 then Raise IndexError
  else
    match nth_error l (Z.to_nat j) with
    | Some a => Ok a
    | None => Raise IndexError
    end.

(** [l.index(x)]: the first position of [x], [ValueError] when absent. *)
Fixpoint index (l : list string) (x : string) : result Z :=
  match l with
  | [] => Raise ValueError
  | y :: r =>
      if String.eqb y x then Ok 0
      else let? i := index r x in Ok (i + 1)
  end.

(** [self.seek_slider.setValue(val)].  The parameter is a C [int]: a
    Python int outside the signed 32-bit range is refused with
    [OverflowError] and the slider is not reached.  A value that is taken
    is kept inside the slider's range; the seek slider is given the range
    0..1000. *)
Definition fits_int (n : Z) : bool := (- 2 ^ 31 <=? n) && (n <? 2 ^ 31).

Definition seek_slider_setValue (val : Z) : M unit :=
  if fits_int val then write (set_seek_slider (Z.max 0 (Z.min 1000 val)))
  else lift (Raise OverflowError).

(** [status.showMessage(msg, timeout)]; the timeout is 0 when not given. *)
Definition status_showMessage (msg : string) (timeout : Z) : M unit :=
  write (set_status (Some (msg, timeout))).

Definition song_list_addItem (it : QListWidgetItem) : M unit :=
  write (fun w =>
    set_song_list
      {| items := items (song_list w) ++ [it];
         currentRow := currentRow (song_list w) |} w).

Definition song_list_setCurrentRow (row : Z) : M unit :=
  write (fun w =>
    set_song_list {| items := items (song_list w); currentRow := row |} w).

Definition song_list_clear : M unit :=
  write (set_song_list {| items := []; currentRow := -1 |}).

Fixpoint for_each {A : Type} (l : list A) (body : A -> M unit) : M unit :=
  match l with
  | [] => ret tt
  | a :: r => body a ;; for_each r body
  end.

Definition is_empty {A : Type} (l : list A) : bool :=
  match l with
  | [] => true
  | _ :: _ => false
  end.

(** ** The handlers of [MusicPlayerWindow] *)

(** The entries [load_directory] keeps: a supported suffix, and a file. *)
Definition supported (listing : list Path) : list Path :=
  filter (fun p =>
            existsb (String.eqb (lower (path_suffix p))) SUPPORTED_EXTS
            && path_is_file p) listing.

Section Handlers.

(** The player is an external engine: how its getters answer after a
    command is left open, and every result below holds for any engine.
    Its notifications reach the window as events of their own. *)
Variable engine : Command -> QMediaPlayer -> QMediaPlayer.

(** The window after the call [self.player.<command>]. *)
Definition sent (c : Command) (w : Window) : Window :=
  set_player_calls (player_calls w ++ [c])
    (set_player (engine c (player w)) w).

Definition call (c : Command) : M unit := write (sent c).

(** [load_directory(path)].  [listing] is what reading the directory gives
    in the first loop: the entries of [sorted(path.iterdir())] with their
    suffixes and [is_file()] answers, or the exception that the reading
    raises (a missing or unreadable directory).  The reading comes after
    the title is set and the list is cleared, and an exception leaves the
    handler there. *)
Definition load_directory (path : string) (listing : result (list Path))
  : M unit :=
  write (set_playlist_title path) ;;
  song_list_clear ;;
  entries <- lift listing ;;
  let files := supported entries in
  if is_empty files then
    song_list_addItem
      {| text := "(no supported audio files found)"; data := None |} ;;
    write (set_current_playlist []) ;;
    write (set_current_index (-1)) ;;
    status_showMessage "No audio files found in the folder." 5000
  else
    for_each files (fun f =>
      song_list_addItem
        {| text := path_name f; data := Some (path_str f) |}) ;;
    write (set_current_playlist (map path_str files)) ;;
    write (set_current_index 0) ;;
    song_list_setCurrentRow 0 ;;
    status_showMessage
      ("Loaded " ++ str_of_N (N.of_nat (List.length files)) ++ " tracks.")
      3000.

(** [self.player.setPosition(ms)].  The parameter is a [qint64]: a Python
    int outside the signed 64-bit range is refused with [OverflowError]
    and the player is not reached. *)
Definition fits_qint64 (n : Z) : bool := (- 2 ^ 63 <=? n) && (n <? 2 ^ 63).

Definition setPosition (ms : Z) : M unit :=
  if fits_qint64 ms then call (player_setPosition ms)
  else lift (Raise OverflowError).

Definition play_at_index (idx : Z) : M unit :=
  l <- read current_playlist ;;
  if (idx <? 0) || (idx >=? len l) then ret tt
  else
    write (set_current_index idx) ;;
    l <- read current_playlist ;;
    file_path <- lift (getitem l idx) ;;
    call (player_setSource (fromLocalFile file_path)) ;;
    call player_play ;;
    song_list_setCurrentRow idx ;;
    status_showMessage ("Playing: " ++ basename file_path) 0.

Definition on_song_clicked (item : QListWidgetItem) : M unit :=
  match data item with
  | None => ret tt
  | Some EmptyString => ret tt
  | Some path =>
      l <- read current_playlist ;;
      match index l path with
      | Ok idx => play_at_index idx
      | Raise ValueError => ret tt
      | Raise e => lift (Raise e)
      end
  end.

Definition play_pause : M unit :=
  state <- read (fun w => playbackState (player w)) ;;
  if PlaybackState_eqb state PlayingState then call player_pause
  else
    src <- read (fun w => source (player w)) ;;
    if negb (isLocalFile src) then
      l <- read current_playlist ;;
      if negb (is_empty l) then
        i <- read current_index ;;
        play_at_index (if i >=? 0 then i else 0)
      else status_showMessage "No track selected." 3000
    else call player_play.

Definition stop : M unit := call player_stop.

Definition prev_track : M unit :=
  l <- read current_playlist ;;
  if is_empty l then ret tt
  else
    i <- read current_index ;;
    repeat_checked <- read repeat_btn ;;
    let new_idx := i - 1 in
    let new_idx :=
      if new_idx <? 0 then
        if repeat_checked then len l - 1 else 0
      else new_idx in
    play_at_index new_idx.

(** [next_track]; [randrange n] stands for the value that the call
    [random.randrange(n)] returns when the handler makes it. *)
Definition next_track (randrange : Z -> Z) : M unit :=
  l <- read current_playlist ;;
  if is_empty l then ret tt
  else
    shuffle_checked <- read shuffle_btn ;;
    repeat_checked <- read repeat_btn ;;
    i <- read current_index ;;
    let new_idx :=
      if shuffle_checked then randrange (len l)
      else
        let new_idx := i + 1 in
        if new_idx >=? len l then
          if repeat_checked then 0 else len l - 1
        else new_idx in
    play_at_index new_idx.

Definition on_playback_state_changed (state : PlaybackState) : M unit :=
  if PlaybackState_eqb state PlayingState then write (set_play_btn SP_MediaPause)
  else write (set_play_btn SP_MediaPlay).

Definition on_volume_changed (value : Z) : M unit :=
  gain <- lift (Py.int_div_float value Py.f100) ;;
  write (fun w => set_audio_calls (audio_calls w ++ [gain]) w).

Definition on_position_changed (pos : Z) : M unit :=
  seeking <- read is_seeking ;;
  if seeking then ret tt
  else
    d <- read (fun w => duration (player w)) ;;
    (if d >? 0 then
       val <- lift (Py.int_scale pos d 1000) ;;
       seek_slider_setValue val
     else ret tt) ;;
    t <- lift (format_ms pos) ;;
    write (set_time_label t).

Definition on_duration_changed (d : Z) : M unit :=
  t <- lift (format_ms d) ;;
  write (set_duration_label t).

Definition on_seek_slider_moved (value : Z) : M unit :=
  d <- read (fun w => duration (player w)) ;;
  if d >? 0 then
    ms <- lift (Py.int_scale value 1000 d) ;;
    t <- lift (format_ms ms) ;;
    write (set_time_label t)
  else ret tt.

Definition _seeker_pressed : M unit := write (set_is_seeking true).

Definition _seeker_released : M unit :=
  value <- read seek_slider ;;
  d <- read (fun w => duration (player w)) ;;
  (if d >? 0 then
     ms <- lift (Py.int_scale value 1000 d) ;;
     setPosition ms
   else ret tt) ;;
  write (set_is_seeking false).

Definition _periodic_update : M unit :=
  seeking <- read is_seeking ;;
  if negb seeking then
    pos <- read (fun w => position (player w)) ;;
    dur <- read (fun w => duration (player w)) ;;
    (if dur >? 0 then
       val <- lift (Py.int_scale pos dur 1000) ;;
       seek_slider_setValue val
     else ret tt) ;;
    t <- lift (format_ms pos) ;;
    write (set_time_label t) ;;
    t <- lift (format_ms dur) ;;
    write (set_duration_label t)
  else ret tt.

(** Defined in the source but connected to no timer or signal. *)
Definition _detect_track_end_and_advance (randrange : Z -> Z) : M unit :=
  dur <- read (fun w => duration (player w)) ;;
  if dur <=? 0 then ret tt
  else
    pos <- read (fun w => position (player w)) ;;
    if pos >=? Z.max 0 (dur - 200) then
      state <- read (fun w => playbackState (player w)) ;;
      if PlaybackState_eqb state PlayingState then next_track randrange
      else ret tt
    else ret tt.

End Handlers.

(** The window as [__init__] leaves it, before any theme or directory. *)
Definition initial : Window := {|
  playlist_title := "Select a folder on the left";
  song_list := {| items := []; currentRow := -1 |};
  play_btn := SP_MediaPlay;
  shuffle_btn := false;
  repeat_btn := false;
  time_label := "00:00";
  seek_slider := 0;
  duration_label := "00:00";
  status := None;
  player := {| source := EmptyUrl; playbackState := StoppedState;
               position := 0; duration := 0 |};
  player_calls := [];
  audio_calls := [S754_finite false 6305039478318694 (-53)]; (* 70 / 100.0 *)
  current_playlist := [];
  current_index := -1;
  is_seeking := false
|}.


(** ** The event loop

    The signal connections made in [__init__], as one event type.  An
    exception that escapes a handler is reported and the loop goes on, so a
    step keeps the window the handler left. *)
Inductive Event : Type :=
| tree_clicked (path : string) (listing : result (list Path))
| song_list_itemClicked (item : QListWidgetItem)
| prev_btn_clicked
| play_btn_clicked
| stop_btn_clicked
| next_btn_clicked (randrange : Z -> Z)
| vol_slider_valueChanged (value : Z)
| seek_slider_sliderPressed
| seek_slider_sliderMoved (value : Z)
| seek_slider_sliderReleased
| player_positionChanged (pos : Z)
| player_durationChanged (d : Z)
| player_playbackStateChanged (state : PlaybackState)
| ui_timer_timeout
| player_progress (p : QMediaPlayer).

Definition with_position (pos : Z) (p : QMediaPlayer) : QMediaPlayer :=
  {| source := source p; playbackState := playbackState p;
     position := pos; duration := duration p |}.

Definition with_duration (d : Z) (p : QMediaPlayer) : QMediaPlayer :=
  {| source := source p; playbackState := playbackState p;
     position := position p; duration := d |}.

Definition with_playbackState (st : PlaybackState) (p : QMediaPlayer)
  : QMediaPlayer :=
  {| source := source p; playbackState := st;
     position := position p; duration := duration p |}.

(** What Qt has changed by the time the handler runs: a notification comes
    with the getter it announces, a slider move with the slider's value;
    [player_progress] is the engine moving on without any notification. *)
Definition arrive (ev : Event) (w : Window) : Window :=
  match ev with
  | seek_slider_sliderMoved value =>
      set_seek_slider (Z.max 0 (Z.min 1000 value)) w
  | player_positionChanged pos => set_player (with_position pos (player w)) w
  | player_durationChanged d => set_player (with_duration d (player w)) w
  | player_playbackStateChanged st =>
      set_player (with_playbackState st (player w)) w
  | player_progress p => set_player p w
  | _ => w
  end.

Section Loop.

Variable engine : Command -> QMediaPlayer -> QMediaPlayer.

Definition handler (ev : Event) : M unit :=
  match ev with
  | tree_clicked path listing => load_directory path listing
  | song_list_itemClicked item => on_song_clicked engine item
  | prev_btn_clicked => prev_track engine
  | play_btn_clicked => play_pause engine
  | stop_btn_clicked => stop engine
  | next_btn_clicked randrange => next_track engine randrange
  | vol_slider_valueChanged value => on_volume_changed value
  | seek_slider_sliderPressed => _seeker_pressed
  | seek_slider_sliderMoved value => on_seek_slider_moved value
  | seek_slider_sliderReleased => _seeker_released engine
  | player_positionChanged pos => on_position_changed pos
  | player_durationChanged d => on_duration_changed d
  | player_playbackStateChanged st => on_playback_state_changed st
  | ui_timer_timeout => _periodic_update
  | player_progress _ => ret tt
  end.

Definition step (w : Window) (ev : Event) : Window :=
  exec (handler ev) (arrive ev w).

Definition run (evs : list Event) (w : Window) : Window :=
  fold_left step evs w.

End Loop.

Definition is_release (ev : Event) : bool :=
  match ev with
  | seek_slider_sliderReleased => true
  | _ => false
  end.

(** The two events through which the engine's position reaches the
    display: its notification and the periodic timer. *)
Definition is_position_refresh (ev : Event) : bool :=
  match ev with
  | player_positionChanged _ => true
  | ui_timer_timeout => true
  | _ => false
  end.

(** A computation that leaves an observation of the window as it was,
    whether it returns or raises. *)
Definition preserves {A B : Type} (f : Window -> A) (c : M B) : Prop :=
  forall w, f (exec c w) = f w.

(** The window after [play_at_index idx] has loaded and started
    [file_path]. *)
Definition played (engine : Command -> QMediaPlayer -> QMediaPlayer)
  (idx : Z) (file_path : string) (w : Window) : Window :=
  set_status (Some ("Playing: " ++ basename file_path, 0))
    (let w1 :=
       sent engine player_play
         (sent engine (player_setSource (fromLocalFile file_path))
            (set_current_index idx w)) in
     set_song_list {| items := items (song_list w1); currentRow := idx |} w1).

(** An engine for the examples: the getters follow the commands at once. *)
Definition demo_engine (c : Command) (p : QMediaPlayer) : QMediaPlayer :=
  match c with
  | player_setSource url =>
      {| source := url; playbackState := StoppedState;
         position := 0; duration := 0 |}
  | player_play =>
      if isLocalFile (source p) then with_playbackState PlayingState p else p
  | player_pause =>
      if PlaybackState_eqb (playbackState p) PlayingState
      then with_playbackState PausedState p else p
  | player_stop => with_position 0 (with_playbackState StoppedState p)
  | player_setPosition ms => with_position ms p
  end.

(** ** Float magnitudes *)

(** A float that is a zero of sign [s], or finite of sign [s] and below
    [2 ^ k] in magnitude, with an exponent no larger than the canonical
    one of such a number. *)
Definition magnitude (s : bool) (k : Z) (x : Py.float) : Prop :=
  match x with
  | S754_zero s' => s' = s
  | S754_finite s' m e =>
      s' = s /\ Zpos (digits2_pos m) + e <= k /\ e <= k - Py.prec
  | _ => False
  end.

Definition magnitudeb (s : bool) (k : Z) (x : Py.float) : bool :=
  match x with
  | S754_zero s' => Bool.eqb s' s
  | S754_finite s' m e =>
      Bool.eqb s' s && (Zpos (digits2_pos m) + e <=? k) && (e <=? k - Py.prec)
  | _ => false
  end.

(** The integers [lo], [lo + 1], ..., [lo + n - 1]. *)
Definition Zrange (lo : Z) (n : nat) : list Z :=
  map (fun i => lo + Z.of_nat i) (seq 0 n).

(** A slider fraction [value / 1000] is a float in [0, 1]. *)
Definition fraction_ok (value : Z) : bool :=
  match Py.int_truediv value 1000 with
  | Ok q => magnitudeb false 1 q
  | Raise _ => false
  end.


(** The seek target as the specification words it, [round(f * D)] for a
    release at fraction [f = value / 1000] with duration [D]: the nearest
    integer to the exact product (halves upward). *)
Definition spec_round_target (value d : Z) : Z :=
  (2 * value * d + 1000) / 2000.

(** ** Sample windows *)

Definition abc_listing : list Path :=
  [ {| path_str := "/music/A.mp3"; path_name := "A.mp3";
       path_suffix := ".mp3"; path_is_file := true |};
    {| path_str := "/music/B.MP3"; path_name := "B.MP3";
       path_suffix := ".MP3"; path_is_file := true |};
    {| path_str := "/music/C.flac"; path_name := "C.flac";
       path_suffix := ".flac"; path_is_file := true |};
    {| path_str := "/music/notes.txt"; path_name := "notes.txt";
       path_suffix := ".txt"; path_is_file := true |};
    {| path_str := "/music/old.mp3"; path_name := "old.mp3";
       path_suffix := ".mp3"; path_is_file := false |} ].

(** The window after the folder ["/music"] with tracks A, B, C is opened. *)
Definition abc : Window :=
  exec (load_directory "/music" (Ok abc_listing)) initial.

Definition with_index (i : Z) (repeat_checked shuffle_checked : bool)
  (w : Window) : Window :=
  Build_Window (playlist_title w) (song_list w) (play_btn w) shuffle_checked
    repeat_checked (time_label w) (seek_slider w) (duration_label w) (status w)
    (player w) (player_calls w) (audio_calls w) (current_playlist w) i
    (is_seeking w).

(** A window in mid-drag: slider at [value], the player reporting
    [d] milliseconds of duration. *)
Definition dragging (value d : Z) : Window :=
  set_seek_slider value
    (set_player (with_duration d (player abc)) (set_is_seeking true abc)).

(** ** Invariants and classes of events *)

(** The current index fits the playlist: -1 on an empty playlist, and a
    position inside it otherwise. *)
Definition index_valid (w : Window) : Prop :=
  (current_playlist w = [] /\ current_index w = -1) \/
  0 <= current_index w < len (current_playlist w).

(** A computation that keeps a property of the window, whether it returns
    or raises. *)
Definition keeps {B : Type} (P : Window -> Prop) (c : M B) : Prop :=
  forall w, P w -> P (exec c w).

(** The events whose handlers make no call on the player: everything but
    the buttons, a click on a song and the release of the seek slider. *)
Definition is_quiet (ev : Event) : bool :=
  match ev with
  | song_list_itemClicked _ => false
  | prev_btn_clicked => false
  | play_btn_clicked => false
  | stop_btn_clicked => false
  | next_btn_clicked _ => false
  | seek_slider_sliderReleased => false
  | _ => true
  end.

Definition is_tree_clicked (ev : Event) : bool :=
  match ev with
  | tree_clicked _ _ => true
  | _ => false
  end.

(** The list item [load_directory] makes for a file, and the one it shows
    when there is none. *)
Definition item_of (f : Path) : QListWidgetItem :=
  {| text := path_name f; data := Some (path_str f) |}.

Definition placeholder_item : QListWidgetItem :=
  {| text := "(no supported audio files found)"; data := None |}.

(** Minutes and seconds of a time in milliseconds, in integer arithmetic. *)
Definition mmss (ms : Z) : string :=
  if ms <? 0 then "--:--"
  else fmt_02d (ms / 1000 / 60) ++ ":" ++ fmt_02d ((ms / 1000) mod 60).

(** ** Rounding, followed exactly *)

(** A shift record that stands for the exact quotient [Y / B]: its
    mantissa is the floor, its round bit is set only from one half up, and
    any bit is set only when the quotient is not an integer. *)
Definition shr_tracks (mrs : shr_record) (Y B : Z) : Prop :=
  shr_m mrs = Y / B /\
  (shr_r mrs = true -> B <= 2 * (Y mod B)) /\
  (shr_r mrs = true \/ shr_s mrs = true -> Y mod B <> 0).

(** A float in [0.0, 1.0]: a positive zero, or [m * 2 ^ e] with
    [m <= 2 ^ -e]. *)
Definition at_most_one (x : Py.float) : Prop :=
  match x with
  | S754_zero s => s = false
  | S754_finite s m e => s = false /\ e <= 0 /\ Zpos m <= 2 ^ (- e)
  | _ => False
  end.

(** ** More sample windows *)

(** Track C playing, 100 ms before its end. *)
Definition near_the_end : Window :=
  set_player
    {| source := fromLocalFile "/music/C.flac"; playbackState := PlayingState;
       position := 179900; duration := 180000 |}
    (with_index 2 false false abc).

(** Track A loaded, three minutes long, the player at [pos] ms. *)
Definition idle_at (pos : Z) : Window :=
  set_player
    {| source := fromLocalFile "/music/A.mp3"; playbackState := PlayingState;
       position := pos; duration := 180000 |} abc.

(** * Facts about the float operations *)

Lemma digits2_pos_bounds (p : positive) :
  2 ^ (Zpos (digits2_pos p) - 1) <= Zpos p < 2 ^ Zpos (digits2_pos p).
Proof.
  induction p as [p IH | p IH |]; cbn [digits2_pos].
  - rewrite Pos2Z.inj_succ, (Pos2Z.inj_xI p).
    replace (Z.succ (Zpos (digits2_pos p)) - 1) with (Z.succ (Zpos (digits2_pos p) - 1)) by lia.
    rewrite !Z.pow_succ_r by lia.
    destruct IH as [IH1 IH2]. revert IH1 IH2.
    generalize (2 ^ (Zpos (digits2_pos p) - 1)) (2 ^ Zpos (digits2_pos p)). lia.
  - rewrite Pos2Z.inj_succ, (Pos2Z.inj_xO p).
    replace (Z.succ (Zpos (digits2_pos p)) - 1) with (Z.succ (Zpos (digits2_pos p) - 1)) by lia.
    rewrite !Z.pow_succ_r by lia.
    destruct IH as [IH1 IH2]. revert IH1 IH2.
    generalize (2 ^ (Zpos (digits2_pos p) - 1)) (2 ^ Zpos (digits2_pos p)). lia.
  - cbn. lia.
Qed.

Lemma Zdigits2_nonneg (x : Z) : 0 <= Zdigits2 x.
Proof. destruct x; cbn; lia. Qed.

Lemma Zdigits2_upper (x : Z) : 0 <= x -> x < 2 ^ Zdigits2 x.
Proof.
  destruct x as [| p | p]; cbn [Zdigits2]; intros H;
    [reflexivity | apply digits2_pos_bounds | lia].
Qed.

Lemma Zdigits2_le (x k : Z) : 0 <= k -> 0 <= x < 2 ^ k -> Zdigits2 x <= k.
Proof.
  intros Hk [H0 H1]. destruct x as [| p | p]; cbn [Zdigits2]; try lia.
  pose proof (digits2_pos_bounds p) as [Hlo _].
  assert (Hlt : 2 ^ (Zpos (digits2_pos p) - 1) < 2 ^ k) by lia.
  apply Z.pow_lt_mono_r_iff in Hlt; lia.
Qed.

Lemma shr_1_div2 (r : shr_record) :
  0 <= shr_m r -> shr_m (shr_1 r) = shr_m r / 2.
Proof.
  destruct r as [m r s]; cbn [shr_m]; intros H.
  destruct m as [| [p | p |] | p]; cbn [shr_1 shr_m]; try lia.
  - reflexivity.
  - rewrite (Pos2Z.inj_xI p). apply Z.div_unique_pos with (r := 1); lia.
  - rewrite (Pos2Z.inj_xO p). apply Z.div_unique_pos with (r := 0); lia.
  - reflexivity.
Qed.

Lemma iter_shr_1_div (p : positive) :
  forall r, 0 <= shr_m r ->
            shr_m (SpecFloat.iter_pos shr_1 p r) = shr_m r / 2 ^ Zpos p.
Proof.
  assert (Hpos : forall q, 0 < 2 ^ Zpos q) by (intros; apply Z.pow_pos_nonneg; lia).
  assert (Hnn : forall a q, 0 <= a -> 0 <= a / 2 ^ Zpos q)
    by (intros; apply Z.div_pos; auto).
  induction p as [p IH | p IH |]; intros r Hr; cbn [SpecFloat.iter_pos].
  - assert (H1 : 0 <= shr_m (shr_1 r))
      by (rewrite shr_1_div2 by assumption; apply Z.div_pos; lia).
    rewrite IH; [rewrite IH by assumption | rewrite IH by assumption; auto].
    rewrite shr_1_div2 by assumption.
    rewrite !Z.div_div by (try apply Hpos; lia).
    f_equal. rewrite (Pos2Z.inj_xI p).
    replace (2 * Zpos p + 1) with (1 + Zpos p + Zpos p) by lia.
    rewrite !Z.pow_add_r by lia. lia.
  - rewrite IH; [rewrite IH by assumption | rewrite IH by assumption; auto].
    rewrite !Z.div_div by (try apply Hpos; lia).
    f_equal. rewrite (Pos2Z.inj_xO p).
    replace (2 * Zpos p) with (Zpos p + Zpos p) by lia.
    rewrite !Z.pow_add_r by lia. lia.
  - rewrite shr_1_div2 by assumption. reflexivity.
Qed.

Lemma shr_record_of_loc_m (m : Z) (l : location) :
  shr_m (shr_record_of_loc m l) = m.
Proof. destruct l as [| []]; reflexivity. Qed.

Lemma shr_fexp_bounds (m e : Z) (l : location) (mrs : shr_record) (e' : Z) :
  0 <= m ->
  shr_fexp Py.prec Py.emax m e l = (mrs, e') ->
  0 <= shr_m mrs /\
  e' = Z.max e (fexp Py.prec Py.emax (Zdigits2 m + e)) /\
  Zdigits2 (shr_m mrs) + e' <= Z.max (Zdigits2 m + e) e'.
Proof.
  intros Hm. unfold shr_fexp, shr.
  pose proof (Zdigits2_upper m Hm) as Hup.
  pose proof (Zdigits2_nonneg m) as Hd.
  destruct (fexp Py.prec Py.emax (Zdigits2 m + e) - e) as [| p | p] eqn:Hn;
    intros Heq; inversion Heq; subst; clear Heq.
  - rewrite shr_record_of_loc_m. lia.
  - rewrite iter_shr_1_div by (rewrite shr_record_of_loc_m; assumption).
    rewrite shr_record_of_loc_m.
    assert (Hp : 0 < 2 ^ Zpos p) by (apply Z.pow_pos_nonneg; lia).
    split; [apply Z.div_pos; lia |]. split; [lia |].
    destruct (Z_le_gt_dec (Zpos p) (Zdigits2 m)) as [Hle | Hgt].
    + assert (Hq : Zdigits2 (m / 2 ^ Zpos p) <= Zdigits2 m - Zpos p).
      { apply Zdigits2_le; [lia |]. split; [apply Z.div_pos; lia |].
        apply Z.div_lt_upper_bound; [assumption |].
        rewrite <- Z.pow_add_r by lia.
        replace (Zpos p + (Zdigits2 m - Zpos p)) with (Zdigits2 m) by lia.
        assumption. }
      lia.
    + assert (Hsmall : m / 2 ^ Zpos p = 0).
      { apply Z.div_small. split; [assumption |].
        apply Z.lt_le_trans with (1 := Hup).
        apply Z.pow_le_mono_r; lia. }
      rewrite Hsmall. cbn [Zdigits2]. lia.
  - rewrite shr_record_of_loc_m. lia.
Qed.

Lemma round_nearest_even_bounds (x : Z) (l : location) :
  x <= round_nearest_even x l <= x + 1.
Proof.
  destruct l as [| []]; cbn [round_nearest_even];
    try destruct (Z.even x); lia.
Qed.

Lemma Zdigits2_step (x y : Z) :
  0 <= x -> x <= y <= x + 1 -> Zdigits2 y <= Zdigits2 x + 1.
Proof.
  intros Hx Hy.
  pose proof (Zdigits2_upper x Hx) as Hup.
  pose proof (Zdigits2_nonneg x) as Hd.
  apply Zdigits2_le; [lia |]. split; [lia |].
  rewrite Z.pow_add_r by lia. change (2 ^ 1) with 2. lia.
Qed.

(** Rounding a non-negative mantissa that is below [2 ^ k] cannot overflow,
    and loses at most one binade. *)
Lemma binary_round_aux_magnitude (s : bool) (m e : Z) (l : location) (k : Z) :
  0 <= m ->
  Zdigits2 m + e <= k ->
  e <= k - 52 ->
  -1022 <= k <= 1023 ->
  magnitude s (k + 1) (binary_round_aux Py.prec Py.emax s m e l).
Proof.
  intros Hm Hk He Hr. unfold binary_round_aux.
  destruct (shr_fexp Py.prec Py.emax m e l) as [mrs1 e1] eqn:H1.
  apply shr_fexp_bounds in H1; [| assumption].
  destruct H1 as (Hn1 & He1 & Hd1).
  pose proof (round_nearest_even_bounds (shr_m mrs1) (loc_of_shr_record mrs1)) as Hrnd.
  pose proof (Zdigits2_step _ _ Hn1 Hrnd) as Hstep.
  destruct (shr_fexp Py.prec Py.emax
              (round_nearest_even (shr_m mrs1) (loc_of_shr_record mrs1)) e1
              loc_Exact) as [mrs2 e2] eqn:H2.
  apply shr_fexp_bounds in H2; [| lia].
  destruct H2 as (Hn2 & He2 & Hd2).
  unfold fexp, emin, Py.prec, Py.emax in *.
  destruct (shr_m mrs2) as [| p | p] eqn:Hm2.
  - reflexivity.
  - cbn [Zdigits2] in Hd2.
    assert (Hle : (e2 <=? 1024 - 53) = true) by (apply Z.leb_le; lia).
    rewrite Hle. cbn [magnitude]. unfold Py.prec. repeat split; lia.
  - lia.
Qed.

Lemma digits2_pos_mul (a b : positive) :
  Zpos (digits2_pos (a * b)) <= Zpos (digits2_pos a) + Zpos (digits2_pos b).
Proof.
  pose proof (digits2_pos_bounds a) as [_ Ha].
  pose proof (digits2_pos_bounds b) as [_ Hb].
  apply (Zdigits2_le (Zpos (a * b))); [lia |]. split; [lia |].
  rewrite Z.pow_add_r by lia. rewrite Pos2Z.inj_mul.
  apply Z.mul_lt_mono_nonneg; lia.
Qed.

Lemma SFmul_magnitude (sx sy : bool) (kx ky : Z) (x y : Py.float) :
  magnitude sx kx x ->
  magnitude sy ky y ->
  -1022 <= kx + ky <= 1023 ->
  magnitude (xorb sx sy) (kx + ky + 1) (Py.float_mul x y).
Proof.
  unfold Py.float_mul.
  destruct x as [sx' | | | sx' mx ex]; destruct y as [sy' | | | sy' my ey];
    cbn [magnitude SFmul]; try tauto; unfold Py.prec.
  - intros -> -> _. reflexivity.
  - intros -> (-> & _) _. reflexivity.
  - intros (-> & _) -> _. reflexivity.
  - intros (-> & Hdx & Hex) (-> & Hdy & Hey) Hr.
    pose proof (digits2_pos_mul mx my) as Hmul.
    apply binary_round_aux_magnitude; cbn [Zdigits2]; lia.
Qed.

Lemma digits2_pos_iter_xO (m d : positive) :
  Zpos (digits2_pos (Pos.iter xO m d)) = Zpos (digits2_pos m) + Zpos d.
Proof.
  induction d as [| d IH] using Pos.peano_ind.
  - cbn. lia.
  - rewrite Pos.iter_succ. cbn [digits2_pos]. lia.
Qed.

Lemma shl_align_bounds (mx : positive) (ex ex' : Z) (mz : positive) (ez : Z) :
  shl_align mx ex ex' = (mz, ez) ->
  Zpos (digits2_pos mz) + ez = Zpos (digits2_pos mx) + ex /\ ez <= ex.
Proof.
  unfold shl_align. destruct (ex' - ex) as [| d | d] eqn:Hd;
    intros Heq; inversion Heq; subst; clear Heq; try lia.
  rewrite digits2_pos_iter_xO. lia.
Qed.

Lemma binary_round_magnitude (s : bool) (m : positive) (e k : Z) :
  Zpos (digits2_pos m) + e <= k ->
  e <= k - 52 ->
  -1022 <= k <= 1023 ->
  magnitude s (k + 1) (binary_round Py.prec Py.emax s m e).
Proof.
  intros Hk He Hr. unfold binary_round.
  destruct (shl_align m e _) as [mz ez] eqn:Hz.
  apply shl_align_bounds in Hz. destruct Hz as [Hz1 Hz2].
  apply binary_round_aux_magnitude; cbn [Zdigits2]; lia.
Qed.

(** [float(n)] succeeds for every [n] below [2 ^ 1023] in magnitude. *)
Lemma float_of_int_magnitude (n k : Z) :
  52 <= k <= 1023 ->
  Z.abs n < 2 ^ k ->
  exists x, Py.float_of_int n = Ok x /\ magnitude (n <? 0) (k + 1) x.
Proof.
  intros Hk Hn. unfold Py.float_of_int.
  assert (Hmag : magnitude (n <? 0) (k + 1)
                   (binary_normalize Py.prec Py.emax n 0 false)).
  { destruct n as [| p | p]; cbn [binary_normalize].
    - reflexivity.
    - apply binary_round_magnitude; try lia.
      pose proof (Zdigits2_le (Zpos p) k). cbn [Zdigits2] in *. lia.
    - apply binary_round_magnitude; try lia.
      pose proof (Zdigits2_le (Zpos p) k). cbn [Zdigits2] in *. lia. }
  destruct (binary_normalize Py.prec Py.emax n 0 false) as [s' | | | s' m e];
    cbn [magnitude] in Hmag; try tauto; cbn [Py.is_inf]; eexists; split;
    try reflexivity; exact Hmag.
Qed.

Lemma int_of_float_magnitude (k : Z) (x : Py.float) :
  magnitude false k x -> exists n, Py.int_of_float x = Ok n /\ 0 <= n.
Proof.
  destruct x as [s | | | s m e]; cbn [magnitude Py.int_of_float]; try tauto.
  - intros _. exists 0. split; [reflexivity | lia].
  - intros (-> & _). eexists. split; [reflexivity |].
    destruct (0 <=? e).
    + apply Z.shiftl_nonneg. lia.
    + apply Z.shiftr_nonneg. lia.
Qed.

Lemma Zrange_In (lo : Z) (n : nat) (v : Z) :
  lo <= v < lo + Z.of_nat n -> In v (Zrange lo n).
Proof.
  intros H. unfold Zrange. apply in_map_iff.
  exists (Z.to_nat (v - lo)). split; [lia |]. apply in_seq. lia.
Qed.

Lemma magnitudeb_sound (s : bool) (k : Z) (x : Py.float) :
  magnitudeb s k x = true -> magnitude s k x.
Proof.
  destruct x as [s' | | | s' m e]; cbn [magnitudeb magnitude];
    try discriminate.
  - apply Bool.eqb_prop.
  - intros H. apply andb_prop in H. destruct H as [H H3].
    apply andb_prop in H. destruct H as [H1 H2].
    apply Bool.eqb_prop in H1. apply Z.leb_le in H2, H3. auto.
Qed.

Lemma fraction_magnitude (value : Z) :
  0 <= value <= 1000 ->
  exists q, Py.int_truediv value 1000 = Ok q /\ magnitude false 1 q.
Proof.
  intros H.
  assert (Hall : forallb fraction_ok (Zrange 0 1001) = true) by (vm_compute; reflexivity).
  rewrite forallb_forall in Hall.
  specialize (Hall value (Zrange_In 0 1001 value ltac:(lia))).
  unfold fraction_ok in Hall.
  destruct (Py.int_truediv value 1000) as [q |]; [| discriminate].
  exists q. split; [reflexivity | apply magnitudeb_sound; assumption].
Qed.

(** The seek target [int((value / 1000) * duration)] is defined, and not
    negative, for every slider value and every positive 64-bit duration. *)
Lemma int_scale_seek_total (value d : Z) :
  0 <= value <= 1000 ->
  0 < d < 2 ^ 63 ->
  exists ms, Py.int_scale value 1000 d = Ok ms /\ 0 <= ms.
Proof.
  intros Hv Hd. unfold Py.int_scale.
  destruct (fraction_magnitude value Hv) as (q & -> & Hq).
  destruct (float_of_int_magnitude d 63) as (f & -> & Hf); [lia | lia |].
  replace (d <? 0) with false in Hf by (symmetry; apply Z.ltb_ge; lia).
  apply (int_of_float_magnitude (1 + (63 + 1) + 1)).
  apply (SFmul_magnitude false false); [assumption | assumption | lia].
Qed.

(** * Running the definitions on small inputs *)

Example format_ms_samples :
  format_ms 61000 = Ok "01:01" /\ format_ms (-1) = Ok "--:--" /\
  format_ms 7261999 = Ok "121:01" /\ format_ms 999 = Ok "00:00".
Proof. repeat split; vm_compute; reflexivity. Qed.

Example int_scale_samples :
  Py.int_scale 500 1000 180000 = Ok 90000 /\
  Py.int_scale 1 1000 1900 = Ok 1 /\
  Py.int_scale 570 1000 100 = Ok 56 /\
  Py.int_scale 45000 180000 1000 = Ok 250.
Proof. repeat split; vm_compute; reflexivity. Qed.

Example initial_gain :
  Py.int_div_float 70 Py.f100 = Ok (hd Py.f0 (audio_calls initial)).
Proof. vm_compute. reflexivity. Qed.

Example getitem_samples :
  getitem ["a"; "b"; "c"] 2 = Ok "c" /\ getitem ["a"; "b"; "c"] (-1) = Ok "c" /\
  getitem ["a"; "b"; "c"] 3 = Raise IndexError /\
  index ["a"; "b"; "c"] "b" = Ok 1 /\ index ["a"] "z" = Raise ValueError.
Proof. repeat split; vm_compute; reflexivity. Qed.

(** * Playing a track by index *)

Lemma len_nonneg {A : Type} (l : list A) : 0 <= len l.
Proof. unfold len. lia. Qed.

Lemma is_empty_len {A : Type} (l : list A) : is_empty l = false -> 0 < len l.
Proof. destruct l; [discriminate | unfold len; cbn; lia]. Qed.

Lemma getitem_in_range {A : Type} (l : list A) (i : Z) :
  0 <= i < len l -> exists a, getitem l i = Ok a.
Proof.
  intros H. unfold getitem.
  replace (i <? 0) with false by (symmetry; apply Z.ltb_ge; lia).
  replace (i <? 0) with false by (symmetry; apply Z.ltb_ge; lia).
  destruct (nth_error l (Z.to_nat i)) as [a |] eqn:Hn.
  - exists a. reflexivity.
  - apply nth_error_None in Hn. unfold len in H. lia.
Qed.

Section PlayAtIndex.

Variable engine : Command -> QMediaPlayer -> QMediaPlayer.

(** Outside the playlist, [play_at_index] returns at its guard. *)
Lemma play_at_index_out_of_range (idx : Z) (w : Window) :
  idx < 0 \/ len (current_playlist w) <= idx ->
  play_at_index engine idx w = (Ok tt, w).
Proof.
  intros H. unfold play_at_index, bind, read.
  replace ((idx <? 0) || (idx >=? len (current_playlist w))) with true;
    [reflexivity |].
  symmetry. apply orb_true_iff.
  destruct H; [left; apply Z.ltb_lt | right; apply Z.geb_le]; lia.
Qed.

(** Inside it, the track is loaded and started and becomes current. *)
Lemma play_at_index_in_range (idx : Z) (w : Window) :
  0 <= idx < len (current_playlist w) ->
  exists file_path,
    getitem (current_playlist w) idx = Ok file_path /\
    play_at_index engine idx w = (Ok tt, played engine idx file_path w).
Proof.
  intros H. destruct (getitem_in_range _ _ H) as [fp Hfp].
  exists fp. split; [assumption |].
  unfold play_at_index, bind, read.
  replace ((idx <? 0) || (idx >=? len (current_playlist w))) with false.
  - cbn. rewrite Hfp. reflexivity.
  - symmetry. apply orb_false_iff. split; [apply Z.ltb_ge |]; lia.
Qed.

End PlayAtIndex.

Example abc_loaded :
  current_playlist abc = ["/music/A.mp3"; "/music/B.MP3"; "/music/C.flac"] /\
  current_index abc = 0 /\
  status abc = Some ("Loaded 3 tracks.", 3000) /\
  player_calls abc = [].
Proof. repeat split. Qed.

(** * Navigation *)

Lemma Zrange_S (lo : Z) (n : nat) :
  Zrange lo (S n) = (Zrange lo n ++ [lo + Z.of_nat n])%list.
Proof. unfold Zrange. rewrite seq_S, map_app. reflexivity. Qed.

Lemma Zrange_count (i lo : Z) (n : nat) :
  List.length (filter (fun r => r =? i) (Zrange lo n)) =
  if (lo <=? i) && (i <? lo + Z.of_nat n) then 1%nat else 0%nat.
Proof.
  induction n as [| n IH].
  - cbn. destruct (lo <=? i) eqn:H1; cbn; [| reflexivity].
    replace (i <? lo + 0) with false; [reflexivity |].
    symmetry. apply Z.ltb_ge. apply Z.leb_le in H1. lia.
  - rewrite Zrange_S, filter_app, length_app, IH. cbn [filter].
    destruct (lo <=? i) eqn:H1; cbn [andb].
    + apply Z.leb_le in H1.
      destruct (i <? lo + Z.of_nat n) eqn:H2.
      * apply Z.ltb_lt in H2.
        replace (lo + Z.of_nat n =? i) with false
          by (symmetry; apply Z.eqb_neq; lia).
        replace (i <? lo + Z.of_nat (S n)) with true
          by (symmetry; apply Z.ltb_lt; lia).
        reflexivity.
      * apply Z.ltb_ge in H2.
        destruct (lo + Z.of_nat n =? i) eqn:H3.
        -- apply Z.eqb_eq in H3.
           replace (i <? lo + Z.of_nat (S n)) with true
             by (symmetry; apply Z.ltb_lt; lia).
           reflexivity.
        -- apply Z.eqb_neq in H3.
           replace (i <? lo + Z.of_nat (S n)) with false
             by (symmetry; apply Z.ltb_ge; lia).
           reflexivity.
    + apply Z.leb_gt in H1.
      replace (lo + Z.of_nat n =? i) with false
        by (symmetry; apply Z.eqb_neq; lia).
      reflexivity.
Qed.

Lemma Zrange_bounds (lo : Z) (n : nat) (v : Z) :
  In v (Zrange lo n) -> lo <= v < lo + Z.of_nat n.
Proof.
  unfold Zrange. intros H. apply in_map_iff in H.
  destruct H as (k & <- & Hk). apply in_seq in Hk. lia.
Qed.

Lemma nonempty_is_empty {A : Type} (l : list A) : l <> [] -> is_empty l = false.
Proof. destruct l; [congruence | reflexivity]. Qed.

Section Navigation.

Variable engine : Command -> QMediaPlayer -> QMediaPlayer.

(** The index [prev_track] computes before it calls [play_at_index]. *)
Lemma prev_track_run (w : Window) :
  current_playlist w <> [] ->
  prev_track engine w =
  play_at_index engine
    (if current_index w - 1 <? 0
     then if repeat_btn w then len (current_playlist w) - 1 else 0
     else current_index w - 1) w.
Proof.
  intros H. apply nonempty_is_empty in H.
  unfold prev_track, bind, read. rewrite H. reflexivity.
Qed.

(** The index [next_track] computes before it calls [play_at_index]. *)
Lemma next_track_run (randrange : Z -> Z) (w : Window) :
  current_playlist w <> [] ->
  next_track engine randrange w =
  play_at_index engine
    (if shuffle_btn w then randrange (len (current_playlist w))
     else if current_index w + 1 >=? len (current_playlist w)
          then if repeat_btn w then 0 else len (current_playlist w) - 1
          else current_index w + 1) w.
Proof.
  intros H. apply nonempty_is_empty in H.
  unfold next_track, bind, read. rewrite H. reflexivity.
Qed.

Lemma nonempty_len {A : Type} (l : list A) : l <> [] -> 0 < len l.
Proof. intros H. apply is_empty_len, nonempty_is_empty, H. Qed.

(** C3: on a non-empty playlist with the current index inside it and
    repeat off, Previous moves to [max 0 (i - 1)] and, with shuffle off,
    Next moves to [min (len - 1) (i + 1)]: both stay inside the playlist,
    Previous from 0 stays at 0 and Next from the last index stays there. *)
Theorem navigation_without_repeat_clamps (randrange : Z -> Z) (w : Window) :
  current_playlist w <> [] ->
  0 <= current_index w < len (current_playlist w) ->
  repeat_btn w = false ->
  (exists w',
      prev_track engine w = (Ok tt, w') /\
      current_index w' = Z.max 0 (current_index w - 1) /\
      0 <= current_index w' < len (current_playlist w) /\
      (current_index w = 0 -> current_index w' = 0)) /\
  (shuffle_btn w = false ->
   exists w',
     next_track engine randrange w = (Ok tt, w') /\
     current_index w' =
       Z.min (len (current_playlist w) - 1) (current_index w + 1) /\
     0 <= current_index w' < len (current_playlist w) /\
     (current_index w = len (current_playlist w) - 1 ->
      current_index w' = len (current_playlist w) - 1)).
Proof.
  intros Hne Hi Hrep. split.
  - rewrite prev_track_run, Hrep by assumption.
    destruct (current_index w - 1 <? 0) eqn:Hlt.
    + apply Z.ltb_lt in Hlt.
      destruct (play_at_index_in_range engine 0 w) as (fp & _ & ->); [lia |].
      eexists. split; [reflexivity |]. cbn. lia.
    + apply Z.ltb_ge in Hlt.
      destruct (play_at_index_in_range engine (current_index w - 1) w)
        as (fp & _ & ->); [lia |].
      eexists. split; [reflexivity |]. cbn. lia.
  - intros Hsh. rewrite next_track_run, Hsh, Hrep by assumption.
    destruct (current_index w + 1 >=? len (current_playlist w)) eqn:Hge.
    + assert (len (current_playlist w) <= current_index w + 1) by lia.
      destruct (play_at_index_in_range engine (len (current_playlist w) - 1) w)
        as (fp & _ & ->); [lia |].
      eexists. split; [reflexivity |]. cbn. lia.
    + assert (current_index w + 1 < len (current_playlist w)) by lia.
      destruct (play_at_index_in_range engine (current_index w + 1) w)
        as (fp & _ & ->); [lia |].
      eexists. split; [reflexivity |]. cbn. lia.
Qed.

(** C4: on a non-empty playlist with repeat on, Previous from index 0
    moves to the last index and, with shuffle off, Next from the last index
    moves to 0. *)
Theorem navigation_with_repeat_wraps (randrange : Z -> Z) (w : Window) :
  current_playlist w <> [] ->
  repeat_btn w = true ->
  (current_index w = 0 ->
   exists w',
     prev_track engine w = (Ok tt, w') /\
     current_index w' = len (current_playlist w) - 1) /\
  (shuffle_btn w = false ->
   current_index w = len (current_playlist w) - 1 ->
   exists w',
     next_track engine randrange w = (Ok tt, w') /\ current_index w' = 0).
Proof.
  intros Hne Hrep. pose proof (nonempty_len _ Hne) as Hlen. split.
  - intros H0. rewrite prev_track_run, Hrep, H0 by assumption.
    change (0 - 1 <? 0) with true. cbv iota.
    destruct (play_at_index_in_range engine (len (current_playlist w) - 1) w)
      as (fp & _ & ->); [lia |].
    eexists. split; reflexivity.
  - intros Hsh Hlast. rewrite next_track_run, Hsh, Hrep by assumption.
    replace (current_index w + 1 >=? len (current_playlist w)) with true
      by (symmetry; apply Z.geb_le; lia).
    destruct (play_at_index_in_range engine 0 w) as (fp & _ & ->); [lia |].
    eexists. split; reflexivity.
Qed.

(** With shuffle on, the new index is the draw itself. *)
Lemma next_track_shuffle (randrange : Z -> Z) (w : Window) :
  current_playlist w <> [] ->
  shuffle_btn w = true ->
  0 <= randrange (len (current_playlist w)) < len (current_playlist w) ->
  exists w',
    next_track engine randrange w = (Ok tt, w') /\
    current_index w' = randrange (len (current_playlist w)).
Proof.
  intros Hne Hsh Hr. rewrite next_track_run, Hsh by assumption.
  destruct (play_at_index_in_range engine _ w Hr) as (fp & _ & ->).
  eexists. split; reflexivity.
Qed.

(** C5: on a playlist of length [n > 0] with shuffle on, Next moves to the
    index that [random.randrange(n)] draws, which lies in [0, n - 1]; each
    index of the playlist, the current one included, is reached by exactly
    one of the [n] draws, so a uniform draw gives a uniform new index. *)
Theorem shuffle_next_is_the_draw (w : Window) :
  current_playlist w <> [] ->
  shuffle_btn w = true ->
  (forall randrange,
      0 <= randrange (len (current_playlist w)) < len (current_playlist w) ->
      exists w',
        next_track engine randrange w = (Ok tt, w') /\
        current_index w' = randrange (len (current_playlist w)) /\
        0 <= current_index w' < len (current_playlist w)) /\
  (forall i,
      0 <= i < len (current_playlist w) ->
      current_index (exec (next_track engine (fun _ => i)) w) = i /\
      List.length
        (filter (fun r =>
                   current_index (exec (next_track engine (fun _ => r)) w) =? i)
           (Zrange 0 (List.length (current_playlist w)))) = 1%nat).
Proof.
  intros Hne Hsh. split.
  - intros randrange Hr.
    destruct (next_track_shuffle randrange w Hne Hsh Hr) as (w' & Hrun & Hidx).
    exists w'. repeat split; try assumption; rewrite Hidx; lia.
  - assert (Hdraw : forall r, 0 <= r < len (current_playlist w) ->
                      current_index (exec (next_track engine (fun _ => r)) w) = r).
    { intros r Hr.
      destruct (next_track_shuffle (fun _ => r) w Hne Hsh Hr) as (w' & Hrun & Hidx).
      unfold exec. rewrite Hrun. exact Hidx. }
    intros i Hi. split; [apply Hdraw; assumption |].
    rewrite (filter_ext_in _ (fun r => r =? i)).
    + rewrite Zrange_count.
      replace ((0 <=? i) && (i <? 0 + Z.of_nat (List.length (current_playlist w))))
        with true; [reflexivity |].
      symmetry. apply andb_true_iff. unfold len in Hi.
      split; [apply Z.leb_le | apply Z.ltb_lt]; lia.
    + intros r Hr. apply Zrange_bounds in Hr. rewrite Hdraw; [reflexivity |].
      unfold len. lia.
Qed.

(** C6 (as the code has it): with [idx] outside the playlist,
    [play_at_index] returns normally at its guard; no exception reaches the
    caller, no message is shown, no command is sent, and the window, its
    current index included, is left as it was. *)
Theorem play_at_index_outside_is_a_silent_no_op (idx : Z) (w : Window) :
  idx < 0 \/ len (current_playlist w) <= idx ->
  play_at_index engine idx w = (Ok tt, w).
Proof. apply play_at_index_out_of_range. Qed.

End Navigation.

Lemma navigation_without_repeat_clamps_witness :
  let w := with_index 2 false false abc in
  current_index (exec (prev_track demo_engine) w) = 1 /\
  current_index (exec (next_track demo_engine (fun _ => 0)) w) = 2.
Proof.
  intros w.
  destruct (navigation_without_repeat_clamps demo_engine (fun _ => 0) w)
    as [(w1 & H1 & I1 & _) H2];
    [discriminate | vm_compute; split; [discriminate | reflexivity]
    | reflexivity |].
  destruct (H2 eq_refl) as (w2 & H3 & I3 & _).
  unfold exec. rewrite H1, H3. cbn [snd]. rewrite I1, I3.
  split; reflexivity.
Defined.

Lemma navigation_with_repeat_wraps_witness :
  let w := with_index 0 true false abc in
  current_index (exec (prev_track demo_engine) w) = 2 /\
  current_index
    (exec (next_track demo_engine (fun _ => 1)) (with_index 2 true false abc))
  = 0.
Proof.
  intros w. split.
  - destruct (navigation_with_repeat_wraps demo_engine (fun _ => 1) w)
      as [H1 _]; [discriminate | reflexivity |].
    destruct (H1 eq_refl) as (w1 & R1 & I1).
    unfold exec. rewrite R1. cbn [snd]. rewrite I1. reflexivity.
  - destruct (navigation_with_repeat_wraps demo_engine (fun _ => 1)
                (with_index 2 true false abc))
      as [_ H2]; [discriminate | reflexivity |].
    destruct (H2 eq_refl eq_refl) as (w2 & R2 & I2).
    unfold exec. rewrite R2. exact I2.
Defined.

Lemma shuffle_next_is_the_draw_witness :
  let w := with_index 1 false true abc in
  current_index (exec (next_track demo_engine (fun _ => 1)) w) = 1 /\
  current_index (exec (next_track demo_engine (fun n => n - 1)) w) = 2.
Proof.
  intros w.
  destruct (shuffle_next_is_the_draw demo_engine w) as [H1 H2];
    [discriminate | reflexivity |].
  split.
  - apply (H2 1). vm_compute. split; [discriminate | reflexivity].
  - destruct (H1 (fun n => n - 1)) as (w' & R & I & _).
    + vm_compute. split; [discriminate | reflexivity].
    + unfold exec. rewrite R. cbn [snd]. rewrite I. reflexivity.
Defined.

Lemma play_at_index_outside_is_a_silent_no_op_witness :
  play_at_index demo_engine 3 abc = (Ok tt, abc) /\
  play_at_index demo_engine (-1) abc = (Ok tt, abc).
Proof.
  split; apply play_at_index_outside_is_a_silent_no_op.
  - right. vm_compute. discriminate.
  - left. reflexivity.
Defined.

(** C6, as stated, fails: index 3 on the three-track playlist raises
    nothing and shows nothing; the call simply returns. *)
Lemma play_at_index_raises_nothing :
  fst (play_at_index demo_engine 3 abc) = Ok tt /\
  (forall e, fst (play_at_index demo_engine 3 abc) <> Raise e) /\
  status (exec (play_at_index demo_engine 3) abc) = status abc /\
  getitem (current_playlist abc) 3 = Raise IndexError.
Proof.
  repeat split; try (intros e; vm_compute; discriminate).
Qed.

(** * What a handler leaves untouched *)

Lemma preserves_ret {A B : Type} (f : Window -> A) (b : B) :
  preserves f (ret b).
Proof. intros w. reflexivity. Qed.

Lemma preserves_lift {A B : Type} (f : Window -> A) (r : result B) :
  preserves f (lift r).
Proof. intros w. reflexivity. Qed.

Lemma preserves_read {A B : Type} (f : Window -> A) (g : Window -> B) :
  preserves f (read g).
Proof. intros w. reflexivity. Qed.

Lemma preserves_write {A : Type} (f : Window -> A) (g : Window -> Window) :
  (forall w, f (g w) = f w) -> preserves f (write g).
Proof. intros H w. apply H. Qed.

Lemma preserves_bind {A B C : Type} (f : Window -> A) (c : M B) (k : B -> M C) :
  preserves f c -> (forall b, preserves f (k b)) -> preserves f (bind c k).
Proof.
  intros Hc Hk w. specialize (Hc w). unfold exec, bind in *.
  destruct (c w) as [[b | e] w']; cbn [snd] in *.
  - rewrite <- Hc. apply Hk.
  - exact Hc.
Qed.

Lemma preserves_for_each {A B : Type} (f : Window -> A) (l : list B)
  (body : B -> M unit) :
  (forall b, preserves f (body b)) -> preserves f (for_each l body).
Proof.
  intros H. induction l as [| b l IH]; cbn [for_each].
  - apply preserves_ret.
  - apply preserves_bind; [apply H | intros _; exact IH].
Qed.

Ltac frame :=
  unfold setPosition, call, seek_slider_setValue, status_showMessage,
    song_list_addItem, song_list_setCurrentRow, song_list_clear;
  repeat first
    [ apply preserves_ret
    | apply preserves_read
    | apply preserves_lift
    | apply preserves_write; intros; reflexivity
    | apply preserves_bind; [| intros ?]
    | apply preserves_for_each; intros ?
    | match goal with
      | |- preserves _ (if ?b then _ else _) => destruct b
      | |- preserves _ (match ?x with _ => _ end) => destruct x
      end ].

Section Frames.

Variable engine : Command -> QMediaPlayer -> QMediaPlayer.

Lemma play_at_index_keeps_seeking (idx : Z) :
  preserves is_seeking (play_at_index engine idx).
Proof. unfold play_at_index. frame. Qed.

(** Only the press and the release of the seek slider write [is_seeking]. *)
Lemma handler_keeps_seeking (ev : Event) :
  is_release ev = false ->
  ev <> seek_slider_sliderPressed ->
  preserves is_seeking (handler engine ev).
Proof.
  intros Hrel Hpress.
  destruct ev; cbn [handler]; try discriminate; try congruence.
  - unfold load_directory. frame.
  - unfold on_song_clicked. frame; apply play_at_index_keeps_seeking.
  - unfold prev_track. frame; apply play_at_index_keeps_seeking.
  - unfold play_pause. frame; apply play_at_index_keeps_seeking.
  - unfold stop. frame.
  - unfold next_track. frame; apply play_at_index_keeps_seeking.
  - unfold on_volume_changed. frame.
  - unfold on_seek_slider_moved. frame.
  - unfold on_position_changed. frame.
  - unfold on_duration_changed. frame.
  - unfold on_playback_state_changed. frame.
  - unfold _periodic_update. frame.
  - frame.
Qed.

Lemma arrive_keeps_seeking (ev : Event) (w : Window) :
  is_seeking (arrive ev w) = is_seeking w.
Proof. destruct ev; reflexivity. Qed.

Lemma step_keeps_dragging (ev : Event) (w : Window) :
  is_release ev = false ->
  is_seeking w = true ->
  is_seeking (step engine w ev) = true.
Proof.
  intros Hrel Hw. unfold step.
  destruct ev; try discriminate;
    try (rewrite handler_keeps_seeking by (try reflexivity; discriminate);
         rewrite arrive_keeps_seeking; exact Hw).
  reflexivity.
Qed.

Lemma run_keeps_dragging (evs : list Event) :
  forallb (fun ev => negb (is_release ev)) evs = true ->
  forall w, is_seeking w = true -> is_seeking (run engine evs w) = true.
Proof.
  induction evs as [| ev evs IH]; intros Hall w Hw; cbn [run fold_left].
  - exact Hw.
  - cbn [forallb] in Hall. apply andb_prop in Hall. destruct Hall as [H1 H2].
    apply IH; [exact H2 |].
    apply step_keeps_dragging; [| exact Hw].
    destruct (is_release ev); [discriminate | reflexivity].
Qed.

(** While [is_seeking] is set, a position notification returns at once. *)
Lemma on_position_changed_while_seeking (pos : Z) (w : Window) :
  is_seeking w = true -> on_position_changed pos w = (Ok tt, w).
Proof. intros H. unfold on_position_changed, bind, read. rewrite H. reflexivity. Qed.

(** While [is_seeking] is set, the periodic refresh does nothing. *)
Lemma _periodic_update_while_seeking (w : Window) :
  is_seeking w = true -> _periodic_update w = (Ok tt, w).
Proof. intros H. unfold _periodic_update, bind, read. rewrite H. reflexivity. Qed.

(** C1: from the press of the seek slider on, through any events that do
    not include its release, a position notification of the engine or a
    tick of the periodic timer runs its handler to an immediate return:
    the time label and the seek slider's value are what they were before
    the event. *)
Theorem drag_shields_the_display (w0 : Window) (pre : list Event) (ev : Event) :
  forallb (fun e => negb (is_release e)) pre = true ->
  is_position_refresh ev = true ->
  let w1 := run engine pre (step engine w0 seek_slider_sliderPressed) in
  is_seeking w1 = true /\
  handler engine ev (arrive ev w1) = (Ok tt, arrive ev w1) /\
  time_label (step engine w1 ev) = time_label w1 /\
  seek_slider (step engine w1 ev) = seek_slider w1.
Proof.
  intros Hpre Hev w1.
  assert (Hdrag : is_seeking w1 = true)
    by (apply run_keeps_dragging; [exact Hpre | reflexivity]).
  split; [exact Hdrag |].
  assert (Hrun : handler engine ev (arrive ev w1) = (Ok tt, arrive ev w1)).
  { destruct ev; try discriminate; cbn [handler].
    - apply on_position_changed_while_seeking.
      rewrite arrive_keeps_seeking. exact Hdrag.
    - apply _periodic_update_while_seeking.
      rewrite arrive_keeps_seeking. exact Hdrag. }
  split; [exact Hrun |].
  unfold step, exec. rewrite Hrun. cbn [snd].
  destruct ev; try discriminate; split; reflexivity.
Qed.

End Frames.

Lemma drag_shields_the_display_witness :
  let pre := [seek_slider_sliderMoved 500; player_durationChanged 180000;
              stop_btn_clicked; seek_slider_sliderMoved 250] in
  let w1 := run demo_engine pre (step demo_engine abc seek_slider_sliderPressed) in
  time_label w1 = "00:45" /\
  time_label (step demo_engine w1 (player_positionChanged 90000)) = "00:45" /\
  seek_slider (step demo_engine w1 ui_timer_timeout) = 250.
Proof.
  intros pre w1. split; [vm_compute; reflexivity |]. split.
  - destruct (drag_shields_the_display demo_engine abc pre
                (player_positionChanged 90000)) as (_ & _ & H & _);
      [reflexivity | reflexivity |].
    fold w1 in H. rewrite H. vm_compute. reflexivity.
  - destruct (drag_shields_the_display demo_engine abc pre ui_timer_timeout)
      as (_ & _ & _ & H); [reflexivity | reflexivity |].
    fold w1 in H. rewrite H. vm_compute. reflexivity.
Defined.

(** * Play / pause with nothing to play *)

Section PlayPause.

Variable engine : Command -> QMediaPlayer -> QMediaPlayer.

(** C8: with an empty playlist and no file loaded into the player (which
    is then not playing), [play_pause] shows "No track selected." for three
    seconds, returns normally, sends no command and changes nothing else. *)
Theorem play_pause_with_nothing_to_play (w : Window) :
  current_playlist w = [] ->
  isLocalFile (source (player w)) = false ->
  playbackState (player w) <> PlayingState ->
  play_pause engine w = (Ok tt, set_status (Some ("No track selected.", 3000)) w).
Proof.
  intros Hl Hsrc Hst. unfold play_pause, bind, read.
  replace (PlaybackState_eqb (playbackState (player w)) PlayingState) with false
    by (destruct (playbackState (player w)); [reflexivity | congruence | reflexivity]).
  rewrite Hsrc. cbn. rewrite Hl. reflexivity.
Qed.

End PlayPause.

Lemma play_pause_with_nothing_to_play_witness :
  play_pause demo_engine initial =
  (Ok tt, set_status (Some ("No track selected.", 3000)) initial).
Proof.
  apply play_pause_with_nothing_to_play; [reflexivity | reflexivity | discriminate].
Defined.

(** * Loading a directory *)

Lemma for_each_addItem_run {A : Type} (g : A -> QListWidgetItem) (l : list A) :
  forall w,
    for_each l (fun a => song_list_addItem (g a)) w =
    (Ok tt,
     set_song_list
       {| items := items (song_list w) ++ map g l;
          currentRow := currentRow (song_list w) |} w).
Proof.
  induction l as [| a l IH]; intros w; cbn [for_each map].
  - destruct w as [t [its row] pb sh rp tl ss dl st pl pc ac cp ci sk].
    cbn. rewrite app_nil_r. reflexivity.
  - unfold bind. cbn. rewrite IH.
    destruct w as [t [its row] pb sh rp tl ss dl st pl pc ac cp ci sk].
    cbn. rewrite <- app_assoc. reflexivity.
Qed.

(** When the directory can be read, [load_directory] returns; what it
    leaves in the playlist, the index and the list. *)
Lemma load_directory_result (path : string) (entries : list Path) (w : Window) :
  let w' := exec (load_directory path (Ok entries)) w in
  load_directory path (Ok entries) w = (Ok tt, w') /\
  current_playlist w' = map path_str (supported entries) /\
  current_index w' = (if is_empty (supported entries) then -1 else 0) /\
  items (song_list w') =
    (if is_empty (supported entries) then [placeholder_item]
     else map item_of (supported entries)) /\
  currentRow (song_list w') = (if is_empty (supported entries) then -1 else 0) /\
  playlist_title w' = path.
Proof.
  unfold exec, load_directory, bind. cbn.
  destruct (supported entries) as [| f files] eqn:Hs; cbn [is_empty].
  - cbn. repeat split.
  - rewrite (for_each_addItem_run item_of). cbn. repeat split.
Qed.

(** When reading the directory raises, the exception leaves the handler
    with the title set and the list emptied, over the playlist and the
    index of before. *)
Lemma load_directory_unreadable (path : string) (e : exn) (w : Window) :
  let w' := exec (load_directory path (Raise e)) w in
  load_directory path (Raise e) w = (Raise e, w') /\
  current_playlist w' = current_playlist w /\
  current_index w' = current_index w /\
  items (song_list w') = [] /\
  currentRow (song_list w') = -1 /\
  playlist_title w' = path.
Proof. repeat split. Qed.

Lemma load_directory_frame {A : Type} (f : Window -> A) (path : string)
  (listing : result (list Path)) :
  (forall v w, f (set_playlist_title v w) = f w) ->
  (forall v w, f (set_song_list v w) = f w) ->
  (forall v w, f (set_current_playlist v w) = f w) ->
  (forall v w, f (set_current_index v w) = f w) ->
  (forall v w, f (set_status v w) = f w) ->
  preserves f (load_directory path listing).
Proof.
  intros H1 H2 H3 H4 H5. unfold load_directory.
  unfold status_showMessage, song_list_addItem, song_list_setCurrentRow,
    song_list_clear.
  repeat first
    [ apply preserves_lift
    | apply preserves_write; intros; cbv beta; solve [auto]
    | apply preserves_bind; [| intros ?]
    | apply preserves_for_each; intros ?
    | match goal with
      | |- preserves _ (if ?b then _ else _) => destruct b
      end ].
Qed.

(** C10: [load_directory] sends no command: the player, the commands sent
    to it so far and the gains sent to the audio output are what they
    were, whatever the directory holds and whether or not it can be read.
    When it is read the handler returns, and with no supported file the
    playlist becomes empty and the index -1, else the playlist is the
    supported files and the index 0; when reading it raises, the playlist
    and the index stay as they were. *)
Theorem load_directory_leaves_the_player_alone
  (path : string) (listing : result (list Path)) (w : Window) :
  let w' := exec (load_directory path listing) w in
  player w' = player w /\
  player_calls w' = player_calls w /\
  audio_calls w' = audio_calls w /\
  (forall entries, listing = Ok entries ->
   load_directory path listing w = (Ok tt, w') /\
   (supported entries = [] ->
    current_playlist w' = [] /\ current_index w' = -1) /\
   (supported entries <> [] ->
    current_playlist w' = map path_str (supported entries) /\
    current_index w' = 0)) /\
  (forall e, listing = Raise e ->
   load_directory path listing w = (Raise e, w') /\
   current_playlist w' = current_playlist w /\
   current_index w' = current_index w).
Proof.
  intros w'.
  split; [apply (load_directory_frame player); reflexivity |].
  split; [apply (load_directory_frame player_calls); reflexivity |].
  split; [apply (load_directory_frame audio_calls); reflexivity |].
  split.
  - intros entries Hl. subst listing.
    destruct (load_directory_result path entries w) as (Hrun & Hp & Hi & _).
    fold w' in Hrun, Hp, Hi. split; [exact Hrun |]. split.
    + intros He. rewrite He in Hp, Hi. split; [exact Hp | exact Hi].
    + intros Hne. rewrite (nonempty_is_empty _ Hne) in Hi.
      split; [exact Hp | exact Hi].
  - intros e Hl. subst listing.
    destruct (load_directory_unreadable path e w) as (Hrun & Hp & Hi & _).
    fold w' in Hrun, Hp, Hi. split; [exact Hrun |]. split; [exact Hp | exact Hi].
Qed.

(** * Volume *)





Lemma load_directory_leaves_the_player_alone_witness :
  let playing := exec (play_at_index demo_engine 1) abc in
  let w' := exec (load_directory "/empty" (Ok [])) playing in
  let w'' := exec (load_directory "/gone" (Raise OSError)) playing in
  playbackState (player playing) = PlayingState /\
  (player w' = player playing /\
   player_calls w' = player_calls playing /\
   current_playlist w' = [] /\ current_index w' = -1) /\
  (player w'' = player playing /\
   player_calls w'' = player_calls playing /\
   current_index w'' = 1).
Proof.
  intros playing w' w''.
  destruct (load_directory_leaves_the_player_alone "/empty" (Ok []) playing)
    as (Hp & Hc & _ & He & _).
  destruct (He [] eq_refl) as (_ & Hempty & _).
  destruct (Hempty eq_refl) as [Hl Hi].
  destruct (load_directory_leaves_the_player_alone "/gone" (Raise OSError)
              playing) as (Hp' & Hc' & _ & _ & Hr).
  destruct (Hr OSError eq_refl) as (_ & _ & Hi').
  split; [reflexivity |]. split.
  - split; [exact Hp |]. split; [exact Hc |]. split; [exact Hl | exact Hi].
  - split; [exact Hp' |]. split; [exact Hc' | exact Hi'].
Defined.

(** * The scenarios of the specification *)

Example next_at_the_end_without_repeat :
  let w := exec (next_track demo_engine (fun _ => 0)) (with_index 2 false false abc) in
  current_index w = 2 /\
  player_calls w = [player_setSource (fromLocalFile "/music/C.flac"); player_play] /\
  status w = Some ("Playing: C.flac", 0).
Proof. repeat split. Qed.

Example next_at_the_end_with_repeat :
  let w := exec (next_track demo_engine (fun _ => 0)) (with_index 2 true false abc) in
  current_index w = 0 /\
  player_calls w = [player_setSource (fromLocalFile "/music/A.mp3"); player_play].
Proof. repeat split. Qed.

Example a_drag_from_press_to_release :
  let w := run demo_engine
             [play_btn_clicked; player_durationChanged 180000;
              player_positionChanged 30000; seek_slider_sliderPressed;
              seek_slider_sliderMoved 500; player_positionChanged 31000;
              ui_timer_timeout; seek_slider_sliderReleased] abc in
  player_calls w =
  [player_setSource (fromLocalFile "/music/A.mp3"); player_play;
   player_setPosition 90000] /\
  time_label w = "01:30" /\ seek_slider w = 500 /\ is_seeking w = false.
Proof. vm_compute. repeat split. Qed.

(** * Further properties of the handlers *)

Lemma keeps_ret {B : Type} (P : Window -> Prop) (b : B) : keeps P (ret b).
Proof. intros w H. exact H. Qed.

Lemma keeps_lift {B : Type} (P : Window -> Prop) (r : result B) :
  keeps P (lift r).
Proof. intros w H. exact H. Qed.

Lemma keeps_read {B : Type} (P : Window -> Prop) (g : Window -> B) :
  keeps P (read g).
Proof. intros w H. exact H. Qed.

Lemma keeps_write (P : Window -> Prop) (g : Window -> Window) :
  (forall w, P w -> P (g w)) -> keeps P (write g).
Proof. intros H w Hw. apply H, Hw. Qed.

Lemma keeps_bind {B C : Type} (P : Window -> Prop) (c : M B) (k : B -> M C) :
  keeps P c -> (forall b, keeps P (k b)) -> keeps P (bind c k).
Proof.
  intros Hc Hk w Hw. specialize (Hc w Hw). unfold exec, bind in *.
  destruct (c w) as [[b | e] w']; cbn [snd] in *.
  - apply Hk, Hc.
  - exact Hc.
Qed.

Lemma keeps_for_each {B : Type} (P : Window -> Prop) (l : list B)
  (body : B -> M unit) :
  (forall b, keeps P (body b)) -> keeps P (for_each l body).
Proof.
  intros H. induction l as [| b l IH]; cbn [for_each].
  - apply keeps_ret.
  - apply keeps_bind; [apply H | intros _; exact IH].
Qed.

Ltac carry_with leaf :=
  unfold setPosition, call, seek_slider_setValue, status_showMessage,
    song_list_addItem, song_list_setCurrentRow, song_list_clear;
  repeat first
    [ leaf
    | apply keeps_ret
    | apply keeps_read
    | apply keeps_lift
    | apply keeps_write; let w := fresh "w" in let H := fresh "H" in
                         intros w H; exact H
    | apply keeps_bind; [| intros ?]
    | apply keeps_for_each; intros ?
    | match goal with
      | |- keeps _ (if ?b then _ else _) => destruct b
      | |- keeps _ (match ?x with _ => _ end) => destruct x
      end ].

Ltac carry := carry_with fail.

(** ** Python's [list.index] *)

Lemma index_found (l : list string) (x : string) :
  In x l ->
  exists i, index l x = Ok i /\ 0 <= i < len l /\ getitem l i = Ok x /\
            forall j, 0 <= j < i -> getitem l j <> Ok x.
Proof.
  induction l as [| y l IH]; intros Hin; [contradiction |].
  cbn [index]. destruct (String.eqb y x) eqn:Heq.
  - apply String.eqb_eq in Heq. subst y. exists 0.
    split; [reflexivity |]. split; [unfold len; cbn; lia |].
    split; [reflexivity |]. intros j Hj. lia.
  - apply String.eqb_neq in Heq.
    destruct Hin as [Hin | Hin]; [congruence |].
    destruct (IH Hin) as (i & Hi & Hr & Hg & Hfirst).
    rewrite Hi. exists (i + 1). cbn [rbind].
    assert (Hlen : len (y :: l) = len l + 1) by (unfold len; cbn [List.length]; lia).
    assert (Hshift : forall j, 0 <= j -> getitem (y :: l) (j + 1) = getitem l j).
    { intros j Hj. unfold getitem.
      replace (j + 1 <? 0) with false by (symmetry; apply Z.ltb_ge; lia).
      replace (j <? 0) with false by (symmetry; apply Z.ltb_ge; lia).
      replace (j + 1 <? 0) with false by (symmetry; apply Z.ltb_ge; lia).
      replace (j <? 0) with false by (symmetry; apply Z.ltb_ge; lia).
      replace (Z.to_nat (j + 1)) with (S (Z.to_nat j)) by lia. reflexivity. }
    split; [reflexivity |]. split; [lia |].
    split; [rewrite Hshift by lia; exact Hg |].
    intros j Hj. destruct (Z.eq_dec j 0) as [-> | Hnz].
    + cbn. congruence.
    + replace j with (j - 1 + 1) by lia. rewrite Hshift by lia.
      apply Hfirst. lia.
Qed.

Lemma index_missing (l : list string) (x : string) :
  ~ In x l -> index l x = Raise ValueError.
Proof.
  induction l as [| y l IH]; intros Hn; [reflexivity |].
  cbn [index]. destruct (String.eqb y x) eqn:Heq.
  - apply String.eqb_eq in Heq. subst y. exfalso. apply Hn. left. reflexivity.
  - rewrite IH; [reflexivity |]. intros Hin. apply Hn. right. exact Hin.
Qed.

Lemma index_NoDup (l : list string) (i : nat) (x : string) :
  NoDup l -> nth_error l i = Some x -> index l x = Ok (Z.of_nat i).
Proof.
  revert i. induction l as [| y l IH]; intros i Hnd Hn.
  - destruct i; discriminate.
  - inversion Hnd as [| ? ? Hnotin Hnd']; subst. destruct i as [| i]; cbn in Hn.
    + inversion Hn; subst. cbn [index]. rewrite String.eqb_refl. reflexivity.
    + cbn [index]. destruct (String.eqb y x) eqn:Heq.
      * apply String.eqb_eq in Heq. subst y. exfalso. apply Hnotin.
        apply nth_error_In with (n := i). exact Hn.
      * rewrite (IH i Hnd' Hn). cbn [rbind]. f_equal. lia.
Qed.

Lemma index_valid_nonempty (w : Window) :
  index_valid w -> current_playlist w <> [] ->
  0 <= current_index w < len (current_playlist w).
Proof. intros [[H _] | H] Hne; [contradiction | exact H]. Qed.

Section Reachable.

Variable engine : Command -> QMediaPlayer -> QMediaPlayer.

Lemma play_at_index_keeps_valid (idx : Z) :
  keeps index_valid (play_at_index engine idx).
Proof.
  intros w Hw. unfold exec.
  destruct (Z_lt_le_dec idx 0) as [Hneg | Hnn].
  - rewrite play_at_index_out_of_range by (left; exact Hneg). exact Hw.
  - destruct (Z_lt_le_dec idx (len (current_playlist w))) as [Hin | Hout].
    + destruct (play_at_index_in_range engine idx w (conj Hnn Hin))
        as (fp & _ & ->).
      right. cbn. lia.
    + rewrite play_at_index_out_of_range by (right; exact Hout). exact Hw.
Qed.

Lemma load_directory_keeps_valid (path : string)
  (listing : result (list Path)) :
  keeps index_valid (load_directory path listing).
Proof.
  intros w Hw. destruct listing as [entries | e].
  - destruct (load_directory_result path entries w) as (_ & Hl & Hi & _).
    unfold index_valid. rewrite Hl, Hi.
    destruct (supported entries) as [| f files]; cbn [is_empty map].
    + left. split; reflexivity.
    + right. unfold len. cbn [List.length]. lia.
  - exact Hw.
Qed.

Lemma handler_keeps_valid (ev : Event) : keeps index_valid (handler engine ev).
Proof.
  destruct ev; cbn [handler].
  - apply load_directory_keeps_valid.
  - unfold on_song_clicked. carry_with ltac:(apply play_at_index_keeps_valid).
  - unfold prev_track. carry_with ltac:(apply play_at_index_keeps_valid).
  - unfold play_pause. carry_with ltac:(apply play_at_index_keeps_valid).
  - unfold stop. carry.
  - unfold next_track. carry_with ltac:(apply play_at_index_keeps_valid).
  - unfold on_volume_changed. carry.
  - unfold _seeker_pressed. carry.
  - unfold on_seek_slider_moved. carry.
  - unfold _seeker_released. carry.
  - unfold on_position_changed. carry.
  - unfold on_duration_changed. carry.
  - unfold on_playback_state_changed. carry.
  - unfold _periodic_update. carry.
  - carry.
Qed.

Lemma arrive_keeps_valid (ev : Event) (w : Window) :
  index_valid w -> index_valid (arrive ev w).
Proof. destruct ev; intros H; exact H. Qed.

(** X1: whatever events arrive and however the engine answers, the current
    index stays valid for the playlist: -1 exactly when the playlist is
    empty, and otherwise a position inside it.  The window starts out that
    way. *)
Theorem current_index_stays_valid (evs : list Event) (w : Window) :
  index_valid w -> index_valid (run engine evs w).
Proof.
  revert w. induction evs as [| ev evs IH]; intros w Hw; cbn [run fold_left].
  - exact Hw.
  - apply IH. unfold step. apply handler_keeps_valid, arrive_keeps_valid, Hw.
Qed.

Lemma handler_quiet (ev : Event) :
  is_quiet ev = true -> preserves player_calls (handler engine ev).
Proof.
  intros Hq. destruct ev; try discriminate; cbn [handler].
  - apply load_directory_frame; reflexivity.
  - unfold on_volume_changed. frame.
  - unfold _seeker_pressed. frame.
  - unfold on_seek_slider_moved. frame.
  - unfold on_position_changed. frame.
  - unfold on_duration_changed. frame.
  - unfold on_playback_state_changed. frame.
  - unfold _periodic_update. frame.
  - frame.
Qed.

Lemma arrive_calls (ev : Event) (w : Window) :
  player_calls (arrive ev w) = player_calls w.
Proof. destruct ev; reflexivity. Qed.

(** X2: notifications of the engine, ticks of the timer, loading a
    directory, the volume slider, and pressing or dragging the seek slider
    never send a command to the player: over any run of such events the
    list of commands sent is what it was. *)
Theorem quiet_events_send_no_command (evs : list Event) (w : Window) :
  forallb is_quiet evs = true ->
  player_calls (run engine evs w) = player_calls w.
Proof.
  revert w. induction evs as [| ev evs IH]; intros w Hall; cbn [run fold_left].
  - reflexivity.
  - cbn [forallb] in Hall. apply andb_prop in Hall. destruct Hall as [Hq Hall].
    fold (run engine evs (step engine w ev)). rewrite (IH _ Hall).
    unfold step. rewrite (handler_quiet ev Hq). apply arrive_calls.
Qed.

Lemma play_at_index_keeps_playlist (idx : Z) :
  preserves current_playlist (play_at_index engine idx).
Proof. unfold play_at_index. frame. Qed.

Lemma play_at_index_keeps_toggles (idx : Z) :
  preserves (fun w => (shuffle_btn w, repeat_btn w)) (play_at_index engine idx).
Proof. unfold play_at_index. frame. Qed.

Lemma handler_keeps_playlist (ev : Event) :
  is_tree_clicked ev = false ->
  preserves current_playlist (handler engine ev).
Proof.
  intros Ht. destruct ev; try discriminate; cbn [handler].
  - unfold on_song_clicked. frame; apply play_at_index_keeps_playlist.
  - unfold prev_track. frame; apply play_at_index_keeps_playlist.
  - unfold play_pause. frame; apply play_at_index_keeps_playlist.
  - unfold stop. frame.
  - unfold next_track. frame; apply play_at_index_keeps_playlist.
  - unfold on_volume_changed. frame.
  - unfold _seeker_pressed. frame.
  - unfold on_seek_slider_moved. frame.
  - unfold _seeker_released. frame.
  - unfold on_position_changed. frame.
  - unfold on_duration_changed. frame.
  - unfold on_playback_state_changed. frame.
  - unfold _periodic_update. frame.
  - frame.
Qed.

Lemma handler_keeps_toggles (ev : Event) :
  preserves (fun w => (shuffle_btn w, repeat_btn w)) (handler engine ev).
Proof.
  destruct ev; cbn [handler].
  - unfold load_directory. frame.
  - unfold on_song_clicked. frame; apply play_at_index_keeps_toggles.
  - unfold prev_track. frame; apply play_at_index_keeps_toggles.
  - unfold play_pause. frame; apply play_at_index_keeps_toggles.
  - unfold stop. frame.
  - unfold next_track. frame; apply play_at_index_keeps_toggles.
  - unfold on_volume_changed. frame.
  - unfold _seeker_pressed. frame.
  - unfold on_seek_slider_moved. frame.
  - unfold _seeker_released. frame.
  - unfold on_position_changed. frame.
  - unfold on_duration_changed. frame.
  - unfold on_playback_state_changed. frame.
  - unfold _periodic_update. frame.
  - frame.
Qed.

(** X3: the playlist is replaced only by loading a directory; no other
    event adds, removes or reorders a track, and no handler at all writes
    the shuffle or repeat toggle. *)
Theorem playlist_changes_only_on_load (ev : Event) (w : Window) :
  (is_tree_clicked ev = false ->
   current_playlist (step engine w ev) = current_playlist w) /\
  shuffle_btn (step engine w ev) = shuffle_btn w /\
  repeat_btn (step engine w ev) = repeat_btn w.
Proof.
  split.
  - intros Ht. unfold step. rewrite (handler_keeps_playlist ev Ht).
    destruct ev; reflexivity.
  - pose proof (handler_keeps_toggles ev (arrive ev w)) as H.
    cbv beta in H. unfold step.
    assert (Ha : (shuffle_btn (arrive ev w), repeat_btn (arrive ev w)) =
                 (shuffle_btn w, repeat_btn w)) by (destruct ev; reflexivity).
    rewrite Ha in H. inversion H. split; reflexivity.
Qed.

(** X4: a click on a list item whose path is in the playlist returns
    normally, makes the first position holding that path the current
    index, and sends the player exactly that path to load, followed by
    play. *)
Theorem song_click_plays_the_clicked_path
  (item : QListWidgetItem) (path : string) (w : Window) :
  data item = Some path ->
  path <> "" ->
  In path (current_playlist w) ->
  exists i,
    index (current_playlist w) path = Ok i /\
    (forall j, 0 <= j < i -> getitem (current_playlist w) j <> Ok path) /\
    on_song_clicked engine item w = (Ok tt, played engine i path w) /\
    current_index (played engine i path w) = i /\
    player_calls (played engine i path w) =
    (player_calls w ++ [player_setSource (fromLocalFile path); player_play])%list.
Proof.
  intros Hd Hne Hin.
  destruct (index_found _ _ Hin) as (i & Hi & Hr & Hg & Hfirst).
  exists i. split; [exact Hi |]. split; [exact Hfirst |].
  split; [| split; [reflexivity |]].
  - unfold on_song_clicked. rewrite Hd.
    destruct path as [| c path']; [congruence |].
    unfold bind, read. rewrite Hi.
    destruct (play_at_index_in_range engine i w Hr) as (fp & Hfp & ->).
    rewrite Hg in Hfp. inversion Hfp. reflexivity.
  - cbn. rewrite <- app_assoc. reflexivity.
Qed.

(** X5: a click on an item that carries no path (as the placeholder of an
    empty folder does), an empty path, or a path that is not in the
    playlist changes nothing and raises nothing: the [ValueError] of
    [list.index] does not leave the handler. *)
Theorem song_click_elsewhere_does_nothing (item : QListWidgetItem) (w : Window) :
  data item = None \/ data item = Some "" \/
  (exists path, data item = Some path /\ ~ In path (current_playlist w)) ->
  on_song_clicked engine item w = (Ok tt, w).
Proof.
  intros [H | [H | (path & H & Hn)]]; unfold on_song_clicked; rewrite H;
    try reflexivity.
  destruct path as [| c path']; [reflexivity |].
  unfold bind, read. rewrite (index_missing _ _ Hn). reflexivity.
Qed.

(** X6: what the song list holds after [load_directory].  When the
    directory is read, the handler returns and the list mirrors the
    playlist: the playlist is the paths of the supported files; with no
    supported file the list holds the single placeholder and a click on it
    does nothing; otherwise the list has one item per track, item [i]
    made from file [i] and [playlist[i]] its path, and, the paths being
    distinct and not empty, a click on item [i] makes [i] the current
    index.  When reading the directory raises, the exception leaves the
    handler with the list empty and the playlist and the index of before:
    the list does not mirror the playlist then. *)
Theorem song_list_after_load_directory
  (path : string) (listing : result (list Path)) (w : Window) :
  let w' := exec (load_directory path listing) w in
  (forall entries, listing = Ok entries ->
   load_directory path listing w = (Ok tt, w') /\
   current_playlist w' = map path_str (supported entries) /\
   (supported entries = [] ->
    items (song_list w') = [placeholder_item] /\
    on_song_clicked engine placeholder_item w' = (Ok tt, w')) /\
   (supported entries <> [] ->
    items (song_list w') = map item_of (supported entries) /\
    List.length (items (song_list w')) = List.length (current_playlist w') /\
    forall (i : nat) (f : Path),
      nth_error (supported entries) i = Some f ->
      nth_error (items (song_list w')) i = Some (item_of f) /\
      getitem (current_playlist w') (Z.of_nat i) = Ok (path_str f) /\
      (NoDup (map path_str (supported entries)) ->
       path_str f <> "" ->
       current_index (exec (on_song_clicked engine (item_of f)) w') =
       Z.of_nat i))) /\
  (forall e, listing = Raise e ->
   load_directory path listing w = (Raise e, w') /\
   items (song_list w') = [] /\
   current_playlist w' = current_playlist w /\
   current_index w' = current_index w).
Proof.
  intros w'. split.
  - intros entries Hlist. subst listing.
    destruct (load_directory_result path entries w) as (Hrun & Hl & Hi & Hit & _).
    fold w' in Hrun, Hl, Hi, Hit.
    split; [exact Hrun |]. split; [exact Hl |]. split.
    + intros He. rewrite He in Hit. cbn [is_empty] in Hit.
      split; [exact Hit | reflexivity].
    + intros Hne. rewrite (nonempty_is_empty _ Hne) in Hit.
      split; [exact Hit |].
      split; [rewrite Hit, Hl, !length_map; reflexivity |].
      intros i f Hf.
      assert (Hnth : nth_error (current_playlist w') i = Some (path_str f)).
      { rewrite Hl. apply map_nth_error. exact Hf. }
      assert (Hrange : 0 <= Z.of_nat i < len (current_playlist w')).
      { unfold len.
        assert (i < List.length (current_playlist w'))%nat
          by (apply nth_error_Some; rewrite Hnth; discriminate).
        lia. }
      assert (Hget : getitem (current_playlist w') (Z.of_nat i) = Ok (path_str f)).
      { unfold getitem.
        replace (Z.of_nat i <? 0) with false by (symmetry; apply Z.ltb_ge; lia).
        replace (Z.of_nat i <? 0) with false by (symmetry; apply Z.ltb_ge; lia).
        rewrite Nat2Z.id, Hnth. reflexivity. }
      split; [rewrite Hit; apply map_nth_error; exact Hf |].
      split; [exact Hget |].
      intros Hnd Hpath.
      unfold exec, on_song_clicked. cbn [item_of data].
      destruct (path_str f) as [| c rest] eqn:Hp; [congruence |].
      unfold bind, read.
      rewrite (index_NoDup (current_playlist w') i (String c rest));
        [| rewrite Hl; exact Hnd | exact Hnth].
      destruct (play_at_index_in_range engine (Z.of_nat i) w' Hrange)
        as (fp & _ & ->).
      reflexivity.
  - intros e Hlist. subst listing.
    destruct (load_directory_unreadable path e w) as (Hrun & Hl & Hi & Hit & _).
    fold w' in Hrun, Hl, Hi, Hit.
    split; [exact Hrun |]. split; [exact Hit |]. split; [exact Hl | exact Hi].
Qed.

End Reachable.

(** * Rounding, followed exactly *)

Lemma div_mod_double (Y B : Z) :
  0 < B -> 0 <= Y ->
  (Z.even (Y / B) = true ->
   Y / (2 * B) = Y / B / 2 /\ Y mod (2 * B) = Y mod B) /\
  (Z.even (Y / B) = false ->
   Y / (2 * B) = Y / B / 2 /\ Y mod (2 * B) = B + Y mod B).
Proof.
  intros HB HY.
  pose proof (Z.div_mod Y B ltac:(lia)) as Hdm.
  pose proof (Z.mod_pos_bound Y B HB) as Hm.
  pose proof (Z.div_mod (Y / B) 2 ltac:(lia)) as Hd2.
  pose proof (Z.mod_pos_bound (Y / B) 2 ltac:(lia)) as Hm2.
  rewrite Zeven_mod. split; intros He.
  - apply Z.eqb_eq in He.
    assert (Heq : Y = 2 * B * (Y / B / 2) + Y mod B) by nia.
    split.
    + symmetry. apply Z.div_unique_pos with (r := Y mod B); [lia | exact Heq].
    + symmetry. apply Z.mod_unique_pos with (q := Y / B / 2); [lia | exact Heq].
  - apply Z.eqb_neq in He.
    assert (Heq : Y = 2 * B * (Y / B / 2) + (B + Y mod B)) by nia.
    split.
    + symmetry. apply Z.div_unique_pos with (r := B + Y mod B); [lia | exact Heq].
    + symmetry. apply Z.mod_unique_pos with (q := Y / B / 2); [lia | exact Heq].
Qed.

Lemma shr_1_tracks (mrs : shr_record) (Y B : Z) :
  0 < B -> 0 <= Y ->
  shr_tracks mrs Y B -> shr_tracks (shr_1 mrs) Y (2 * B).
Proof.
  intros HB HY (Hm & Hr & Hs).
  destruct (div_mod_double Y B HB HY) as [Heven Hodd].
  pose proof (Z.mod_pos_bound Y B HB) as Hmod.
  destruct mrs as [m r s]. cbn [shr_m shr_r shr_s] in *.
  assert (Hs' : orb r s = true -> Y mod B <> 0).
  { intros H. apply orb_prop in H. apply Hs. exact H. }
  assert (Hm0 : 0 <= m) by (rewrite Hm; apply Z.div_pos; lia).
  destruct m as [| [p | p |] | p]; cbn [shr_1]; unfold shr_tracks;
    cbn [shr_m shr_r shr_s]; try lia.
  - (* 0 *)
    destruct Heven as [E1 E2]; [rewrite <- Hm; reflexivity |].
    rewrite E1, E2, <- Hm. repeat split; try discriminate.
    intros [H | H]; [discriminate | apply Hs', H].
  - (* odd *)
    destruct Hodd as [E1 E2]; [rewrite <- Hm; reflexivity |].
    rewrite E1, E2, <- Hm. split; [| split]; try lia.
    rewrite (Pos2Z.inj_xI p).
    apply Z.div_unique_pos with (r := 1); lia.
  - (* even *)
    destruct Heven as [E1 E2]; [rewrite <- Hm; reflexivity |].
    rewrite E1, E2, <- Hm. split; [| split]; try discriminate.
    + rewrite (Pos2Z.inj_xO p).
      apply Z.div_unique_pos with (r := 0); lia.
    + intros [H | H]; [discriminate | apply Hs', H].
  - (* 1 *)
    destruct Hodd as [E1 E2]; [rewrite <- Hm; reflexivity |].
    rewrite E1, E2, <- Hm. split; [reflexivity |]. split; lia.
Qed.

Lemma iter_shr_1_tracks (p : positive) :
  forall mrs Y B,
    0 < B -> 0 <= Y ->
    shr_tracks mrs Y B ->
    shr_tracks (SpecFloat.iter_pos shr_1 p mrs) Y (B * 2 ^ Zpos p).
Proof.
  assert (Hpos : forall q, 0 < 2 ^ Zpos q) by (intros; apply Z.pow_pos_nonneg; lia).
  induction p as [p IH | p IH |]; intros mrs Y B HB HY H;
    cbn [SpecFloat.iter_pos].
  - apply shr_1_tracks in H; [| assumption | assumption].
    apply IH in H; [| lia | assumption].
    apply IH in H; [| pose proof (Hpos p); nia | assumption].
    replace (B * 2 ^ Zpos p~1) with (2 * B * 2 ^ Zpos p * 2 ^ Zpos p); [exact H |].
    rewrite (Pos2Z.inj_xI p).
    replace (2 * Zpos p + 1) with (1 + Zpos p + Zpos p) by lia.
    rewrite !Z.pow_add_r by lia. change (2 ^ 1) with 2. ring.
  - apply IH in H; [| lia | assumption].
    apply IH in H; [| pose proof (Hpos p); nia | assumption].
    replace (B * 2 ^ Zpos p~0) with (B * 2 ^ Zpos p * 2 ^ Zpos p); [exact H |].
    rewrite (Pos2Z.inj_xO p).
    replace (2 * Zpos p) with (Zpos p + Zpos p) by lia.
    rewrite !Z.pow_add_r by lia. ring.
  - apply shr_1_tracks in H; [| assumption | assumption].
    replace (B * 2 ^ 1) with (2 * B) by (change (2 ^ 1) with 2; ring). exact H.
Qed.

(** [shr_fexp] shifts by [n >= 0] places and keeps track of the quotient. *)
Lemma shr_fexp_tracks (m e : Z) (l : location) (Y B : Z)
  (mrs : shr_record) (e' : Z) :
  0 < B -> 0 <= Y ->
  shr_tracks (shr_record_of_loc m l) Y B ->
  shr_fexp Py.prec Py.emax m e l = (mrs, e') ->
  exists n, 0 <= n /\ e' = e + n /\
            e' = Z.max e (fexp Py.prec Py.emax (Zdigits2 m + e)) /\
            shr_tracks mrs Y (B * 2 ^ n).
Proof.
  intros HB HY Ht. unfold shr_fexp, shr.
  destruct (fexp Py.prec Py.emax (Zdigits2 m + e) - e) as [| p | p] eqn:Hn;
    intros Heq; inversion Heq; subst; clear Heq.
  - exists 0. change (2 ^ 0) with 1. rewrite Z.mul_1_r.
    split; [lia |]. split; [lia |]. split; [lia | exact Ht].
  - exists (Zpos p). split; [lia |]. split; [lia |]. split; [lia |].
    apply iter_shr_1_tracks; assumption.
  - exists 0. change (2 ^ 0) with 1. rewrite Z.mul_1_r.
    split; [lia |]. split; [lia |]. split; [lia | exact Ht].
Qed.

(** Rounding to nearest goes up only from one half on, and not at all
    from an integer. *)
Lemma round_tracks (mrs : shr_record) (Y B : Z) :
  0 < B -> 0 <= Y ->
  shr_tracks mrs Y B ->
  let m2 := round_nearest_even (shr_m mrs) (loc_of_shr_record mrs) in
  Y / B <= m2 <= Y / B + 1 /\
  2 * m2 * B <= 2 * Y + B /\
  (Y mod B = 0 -> m2 = Y / B).
Proof.
  intros HB HY (Hm & Hr & Hs) m2.
  pose proof (Z.div_mod Y B ltac:(lia)) as Hdm.
  pose proof (Z.mod_pos_bound Y B HB) as Hmod.
  destruct mrs as [m r s]. cbn [shr_m shr_r shr_s] in *. subst m2.
  destruct r, s; cbn [loc_of_shr_record round_nearest_even];
    try destruct (Z.even m); rewrite <- Hm in *;
    try (specialize (Hr eq_refl));
    repeat split; try lia; try nia;
    try (intros H0; exfalso; apply Hs; [auto | exact H0]).
Qed.

Lemma exact_record_tracks (m : Z) :
  shr_tracks (shr_record_of_loc m loc_Exact) m 1.
Proof.
  unfold shr_tracks. cbn [shr_record_of_loc shr_m shr_r shr_s].
  rewrite Z.div_1_r, Z.mod_1_r.
  split; [reflexivity |]. split; [discriminate |]. intros [H | H]; discriminate.
Qed.

Lemma int_of_float_shifted (m3 e3 : Z) :
  0 <= m3 -> e3 <= 0 ->
  Py.int_of_float
    match m3 with
    | Z0 => S754_zero false
    | Zpos p => S754_finite false p e3
    | Zneg _ => S754_nan
    end = Ok (m3 / 2 ^ (- e3)).
Proof.
  intros Hm He. destruct m3 as [| p | p]; [| | lia].
  - cbn [Py.int_of_float]. rewrite Z.div_0_l; [reflexivity |].
    apply Z.pow_nonzero; lia.
  - cbn [Py.int_of_float]. destruct (0 <=? e3) eqn:H0.
    + apply Z.leb_le in H0. assert (e3 = 0) by lia. subst e3.
      cbn. rewrite Z.div_1_r. reflexivity.
    + rewrite Z.shiftr_div_pow2 by lia. reflexivity.
Qed.

(** Rounding a non-negative number, step by step: with [Y / B] the exact
    mantissa at exponent [e], a first shift by [n1] places and the
    rounding leave a mantissa [m2] within one half of [Y / (B * 2 ^ n1)],
    and a second shift by [n2] places gives the result. *)
Lemma binary_round_aux_result (m e : Z) (l : location) (Y B : Z) :
  0 < B -> 0 <= Y ->
  shr_tracks (shr_record_of_loc m l) Y B ->
  exists n1 n2 m2,
    0 <= n1 /\ 0 <= n2 /\
    e + n1 = Z.max e (fexp Py.prec Py.emax (Zdigits2 m + e)) /\
    e + n1 + n2 =
      Z.max (e + n1) (fexp Py.prec Py.emax (Zdigits2 m2 + (e + n1))) /\
    Y / (B * 2 ^ n1) <= m2 <= Y / (B * 2 ^ n1) + 1 /\
    2 * m2 * (B * 2 ^ n1) <= 2 * Y + B * 2 ^ n1 /\
    (Y mod (B * 2 ^ n1) = 0 -> m2 = Y / (B * 2 ^ n1)) /\
    (e + n1 + n2 <= Py.emax - Py.prec ->
     binary_round_aux Py.prec Py.emax false m e l =
     match m2 / 2 ^ n2 with
     | Z0 => S754_zero false
     | Zpos p => S754_finite false p (e + n1 + n2)
     | Zneg _ => S754_nan
     end).
Proof.
  intros HB HY Ht. unfold binary_round_aux.
  destruct (shr_fexp Py.prec Py.emax m e l) as [mrs1 e1] eqn:H1.
  destruct (shr_fexp_tracks _ _ _ _ _ _ _ HB HY Ht H1)
    as (n1 & Hn1 & He1 & Hmax1 & Ht1).
  assert (HB1 : 0 < B * 2 ^ n1)
    by (apply Z.mul_pos_pos; [lia | apply Z.pow_pos_nonneg; lia]).
  pose proof (round_tracks mrs1 Y (B * 2 ^ n1) HB1 HY Ht1) as (Hr1 & Hr2 & Hr3).
  set (m2 := round_nearest_even (shr_m mrs1) (loc_of_shr_record mrs1)) in *.
  assert (Hm2 : 0 <= m2).
  { pose proof (Z.div_pos Y (B * 2 ^ n1) HY HB1). lia. }
  destruct (shr_fexp Py.prec Py.emax m2 e1 loc_Exact) as [mrs2 e2] eqn:H2.
  destruct (shr_fexp_tracks m2 e1 loc_Exact m2 1 mrs2 e2 ltac:(lia) Hm2
              (exact_record_tracks m2) H2)
    as (n2 & Hn2 & He2 & Hmax2 & (Hm3 & _)).
  exists n1, n2, m2. subst e1. rewrite He2 in Hmax2. rewrite He2. clear He2.
  split; [exact Hn1 |]. split; [exact Hn2 |]. split; [exact Hmax1 |].
  split; [exact Hmax2 |]. split; [exact Hr1 |].
  split; [exact Hr2 |]. split; [exact Hr3 |].
  intros Hle. rewrite Z.mul_1_l in Hm3. rewrite Hm3.
  replace (e + n1 + n2 <=? Py.emax - Py.prec) with true
    by (symmetry; apply Z.leb_le; exact Hle).
  reflexivity.
Qed.

(** [int] of the rounded number cuts it to [m2 / 2 ^ -(e + n1)]. *)
Lemma int_of_rounded (m e : Z) (l : location) (Y B : Z) :
  0 < B -> 0 <= Y ->
  shr_tracks (shr_record_of_loc m l) Y B ->
  exists n1 m2,
    0 <= n1 /\
    e + n1 = Z.max e (fexp Py.prec Py.emax (Zdigits2 m + e)) /\
    Y / (B * 2 ^ n1) <= m2 <= Y / (B * 2 ^ n1) + 1 /\
    2 * m2 * (B * 2 ^ n1) <= 2 * Y + B * 2 ^ n1 /\
    (Y mod (B * 2 ^ n1) = 0 -> m2 = Y / (B * 2 ^ n1)) /\
    (Z.max (e + n1) (fexp Py.prec Py.emax (Zdigits2 m2 + (e + n1))) <= 0 ->
     Py.int_of_float (binary_round_aux Py.prec Py.emax false m e l) =
     Ok (m2 / 2 ^ (- (e + n1)))).
Proof.
  intros HB HY Ht.
  destruct (binary_round_aux_result m e l Y B HB HY Ht)
    as (n1 & n2 & m2 & Hn1 & Hn2 & Hmax1 & Hmax2 & Hr1 & Hr2 & Hr3 & Hres).
  exists n1, m2.
  split; [exact Hn1 |]. split; [exact Hmax1 |]. split; [exact Hr1 |].
  split; [exact Hr2 |]. split; [exact Hr3 |].
  intros Hle. rewrite <- Hmax2 in Hle.
  rewrite Hres by (unfold Py.emax, Py.prec; lia).
  assert (HB1 : 0 < B * 2 ^ n1)
    by (apply Z.mul_pos_pos; [lia | apply Z.pow_pos_nonneg; lia]).
  assert (Hm2 : 0 <= m2).
  { pose proof (Z.div_pos Y (B * 2 ^ n1) HY HB1). lia. }
  assert (H2n : 0 < 2 ^ n2) by (apply Z.pow_pos_nonneg; lia).
  rewrite int_of_float_shifted; [| apply Z.div_pos; lia | lia].
  rewrite Z.div_div by (try apply Z.pow_pos_nonneg; lia).
  rewrite <- Z.pow_add_r by lia. do 3 f_equal. lia.
Qed.

Lemma new_location_tracks (b r q Y : Z) :
  0 < b -> 0 <= r < b -> Y = b * q + r ->
  shr_tracks (shr_record_of_loc q (new_location b r)) Y b.
Proof.
  intros Hb Hr HY.
  assert (Hq : Y / b = q) by (symmetry; apply Z.div_unique_pos with (r := r); assumption).
  assert (Hm : Y mod b = r) by (symmetry; apply Z.mod_unique_pos with (q := q); assumption).
  unfold shr_tracks. rewrite Hq, Hm.
  unfold new_location, new_location_even, new_location_odd.
  destruct (Z.even b); destruct (Z.eqb_spec r 0) as [H0 | H0];
    cbn [shr_record_of_loc shr_m shr_r shr_s].
  - split; [reflexivity |]. split; [discriminate |]. intros [H | H]; discriminate.
  - destruct (Z.compare_spec (2 * r) b);
      cbn [shr_record_of_loc shr_m shr_r shr_s];
      (split; [reflexivity |]); (split; [intros; try discriminate; lia |]);
      intros _; exact H0.
  - split; [reflexivity |]. split; [discriminate |]. intros [H | H]; discriminate.
  - destruct (Z.compare_spec (2 * r + 1) b);
      cbn [shr_record_of_loc shr_m shr_r shr_s];
      (split; [reflexivity |]); (split; [intros; try discriminate; lia |]);
      intros _; exact H0.
Qed.

Lemma Zdigits2_lower (x : Z) : 0 < x -> 2 ^ (Zdigits2 x - 1) <= x.
Proof.
  destruct x as [| p | p]; intros H; try lia.
  cbn [Zdigits2]. apply digits2_pos_bounds.
Qed.

(** The core of a division of two integers, the dividend not more than
    52 bits longer than the divisor: the dividend is shifted by [k] places,
    until the quotient has 53 or 54 bits. *)
Lemma SFdiv_core_of_ints (a b : Z) :
  0 < a -> 0 < b ->
  Zdigits2 a <= Zdigits2 b + 52 ->
  Zdigits2 b <= Zdigits2 a + 1000 ->
  let k := 53 + Zdigits2 b - Zdigits2 a in
  SFdiv_core_binary Py.prec Py.emax a 0 b 0 =
  (a * 2 ^ k / b, - k, new_location b ((a * 2 ^ k) mod b)).
Proof.
  intros Ha Hb Hd1 Hd2 k.
  unfold SFdiv_core_binary.
  assert (He : Z.min (fexp Py.prec Py.emax (Zdigits2 a + 0 - (Zdigits2 b + 0))) (0 - 0)
               = - k).
  { unfold fexp, emin, Py.prec, Py.emax. subst k. lia. }
  rewrite He.
  replace (0 - 0 - - k) with k by lia.
  assert (Hk : 0 < k) by (subst k; lia).
  destruct k as [| pk | pk] eqn:Ek; try lia.
  rewrite Z.shiftl_mul_pow2 by lia.
  unfold Z.div, Z.modulo.
  destruct (Z.div_eucl (a * 2 ^ Z.pos pk) b) as [q r]. reflexivity.
Qed.

(** The quotient of that division has at most 54 bits. *)
Lemma SFdiv_core_quotient_bits (a b : Z) :
  0 < a -> 0 < b ->
  0 <= 53 + Zdigits2 b - Zdigits2 a ->
  a * 2 ^ (53 + Zdigits2 b - Zdigits2 a) / b < 2 ^ 54.
Proof.
  intros Ha Hb Hk.
  pose proof (Zdigits2_nonneg a) as Hna. pose proof (Zdigits2_nonneg b) as Hnb.
  assert (Hdb : 1 <= Zdigits2 b) by (destruct b; cbn [Zdigits2]; lia).
  apply Z.div_lt_upper_bound; [lia |].
  pose proof (Zdigits2_upper a ltac:(lia)) as Hup.
  pose proof (Zdigits2_lower b ltac:(lia)) as Hlo.
  set (K := 2 ^ (53 + Zdigits2 b - Zdigits2 a)).
  assert (HK : 0 < K) by (apply Z.pow_pos_nonneg; lia).
  assert (HKe : K * 2 ^ Zdigits2 a = 2 ^ 53 * 2 ^ Zdigits2 b).
  { subst K. rewrite <- !Z.pow_add_r by lia. f_equal. lia. }
  assert (H2 : 2 ^ Zdigits2 b = 2 * 2 ^ (Zdigits2 b - 1)).
  { rewrite <- Z.pow_succ_r by lia. f_equal. lia. }
  change (2 ^ 54) with (2 * 2 ^ 53). nia.
Qed.

(** [int(a / b)] is the floor quotient [a // b], for a dividend below
    [2 ^ 53] and a divisor from 4 up: the rounding of the division never
    reaches the next integer. *)
Lemma int_truediv_floor (a b : Z) :
  0 <= a < 2 ^ 53 -> 4 <= b < 2 ^ 53 ->
  exists q, Py.int_truediv a b = Ok q /\ Py.int_of_float q = Ok (a / b).
Proof.
  intros Ha Hb. unfold Py.int_truediv.
  replace (b =? 0) with false by (symmetry; apply Z.eqb_neq; lia).
  destruct (Z.eq_dec a 0) as [-> | Hnz].
  { destruct b as [| pb | pb]; try lia. cbn. eexists. split; reflexivity. }
  assert (Hda : 1 <= Zdigits2 a <= 53).
  { split; [| apply Zdigits2_le; lia]. destruct a; cbn [Zdigits2]; lia. }
  assert (Hdb : 3 <= Zdigits2 b <= 53).
  { split; [| apply Zdigits2_le; lia].
    pose proof (Zdigits2_upper b ltac:(lia)) as Hup.
    pose proof (Zdigits2_nonneg b) as Hnn.
    destruct (Z_lt_le_dec (Zdigits2 b) 3) as [Hlt | Hge]; [| exact Hge].
    exfalso. assert (2 ^ Zdigits2 b <= 2 ^ 2) by (apply Z.pow_le_mono_r; lia).
    change (2 ^ 2) with 4 in *. lia. }
  pose proof (SFdiv_core_of_ints a b ltac:(lia) ltac:(lia) ltac:(lia) ltac:(lia))
    as Hcore. cbv zeta in Hcore.
  pose proof (SFdiv_core_quotient_bits a b ltac:(lia) ltac:(lia) ltac:(lia))
    as Hq54.
  set (k := 53 + Zdigits2 b - Zdigits2 a) in *.
  assert (Hk : 3 <= k <= 105) by (subst k; lia).
  set (K := 2 ^ k) in *.
  assert (HK : 0 < K) by (apply Z.pow_pos_nonneg; lia).
  assert (HbK : b < K).
  { pose proof (Zdigits2_upper b ltac:(lia)) as Hup.
    apply Z.lt_le_trans with (1 := Hup). apply Z.pow_le_mono_r; lia. }
  set (Y := a * K) in *.
  assert (HY : 0 <= Y) by (subst Y; nia).
  fold K in Hq54. fold Y in Hq54.
  destruct a as [| pa | pa]; try lia. destruct b as [| pb | pb]; try lia.
  cbn [Py.exact SFdiv xorb]. rewrite Hcore.
  pose proof (Z.mod_pos_bound Y (Zpos pb) ltac:(lia)) as Hmod.
  pose proof (new_location_tracks (Zpos pb) (Y mod Zpos pb) (Y / Zpos pb) Y
                ltac:(lia) Hmod (Z.div_mod Y (Zpos pb) ltac:(lia))) as Ht.
  destruct (int_of_rounded (Y / Zpos pb) (- k) _ Y (Zpos pb) ltac:(lia) HY Ht)
    as (n1 & m2 & Hn1 & Hmax1 & Hr1 & Hr2 & _ & Hint).
  assert (Hdq : Zdigits2 (Y / Zpos pb) <= 54).
  { apply Zdigits2_le; [lia |]. split; [apply Z.div_pos; lia | exact Hq54]. }
  assert (Hn1' : n1 <= 1).
  { unfold fexp, emin, Py.prec, Py.emax in Hmax1. lia. }
  set (Q := 2 ^ n1) in *.
  assert (HQ : 1 <= Q <= 2).
  { subst Q. destruct (Z.eq_dec n1 0) as [-> | ?]; [cbn; lia |].
    replace n1 with 1 by lia. cbn. lia. }
  set (P := 2 ^ (k - n1)).
  assert (HP : 0 < P) by (apply Z.pow_pos_nonneg; lia).
  assert (HPQ : P * Q = K).
  { subst P Q K. rewrite <- Z.pow_add_r by lia. f_equal. lia. }
  assert (Hle : Y / (Zpos pb * Q) <= Y / Zpos pb).
  { rewrite <- Z.div_div by lia. apply Z.div_le_upper_bound; [lia |].
    pose proof (Z.div_pos Y (Zpos pb) HY ltac:(lia)). nia. }
  assert (Hm2 : 0 <= m2 < 2 ^ 55).
  { pose proof (Z.div_pos Y (Zpos pb * Q) HY ltac:(nia)).
    change (2 ^ 55) with (2 * 2 ^ 54). lia. }
  assert (Hdm2 : Zdigits2 m2 <= 55) by (apply Zdigits2_le; lia).
  assert (Hinf : Py.is_inf
                   (binary_round_aux Py.prec Py.emax false (Y / Zpos pb) (- k)
                      (new_location (Zpos pb) (Y mod Zpos pb))) = false).
  { pose proof (binary_round_aux_magnitude false (Y / Zpos pb) (- k)
                  (new_location (Zpos pb) (Y mod Zpos pb)) (54 - k)
                  ltac:(apply Z.div_pos; lia) ltac:(lia) ltac:(lia) ltac:(lia))
      as Hmag.
    destruct (binary_round_aux _ _ _ _ _ _); cbn [magnitude] in Hmag;
      try contradiction; reflexivity. }
  rewrite Hinf. eexists. split; [reflexivity |].
  rewrite Hint.
  2:{ unfold fexp, emin, Py.prec, Py.emax. lia. }
  f_equal. replace (- (- k + n1)) with (k - n1) by lia. fold P.
  set (n := Zpos pa / Zpos pb).
  pose proof (Z.div_mod (Zpos pa) (Zpos pb) ltac:(lia)) as Hdm.
  pose proof (Z.mod_pos_bound (Zpos pa) (Zpos pb) ltac:(lia)) as Hrho.
  fold n in Hdm.
  assert (Hn : 0 <= n) by (apply Z.div_pos; lia).
  assert (HbQ : 0 < Zpos pb * Q) by (apply Z.mul_pos_pos; lia).
  assert (Hlow : n * P <= m2).
  { apply Z.le_trans with (Y / (Zpos pb * Q)); [| lia].
    apply Z.div_le_lower_bound; [exact HbQ |]. subst Y.
    replace (Zpos pb * Q * (n * P)) with (Zpos pb * n * K)
      by (rewrite <- HPQ; ring).
    apply Z.mul_le_mono_nonneg_r; lia. }
  assert (Hupp : m2 < (n + 1) * P).
  { assert (E1 : (Zpos pa + 1) * K <= (n + 1) * Zpos pb * K)
      by (apply Z.mul_le_mono_nonneg_r; lia).
    assert (E2 : Zpos pb * Q <= Zpos pb * 2)
      by (apply Z.mul_le_mono_nonneg_l; lia).
    assert (E3 : (n + 1) * P * (2 * (Zpos pb * Q)) = 2 * ((n + 1) * Zpos pb * K))
      by (rewrite <- HPQ; ring).
    apply (Z.mul_lt_mono_pos_r (2 * (Zpos pb * Q))); [lia |].
    rewrite E3. subst Y. lia. }
  symmetry. apply Z.div_unique_pos with (r := m2 - n * P); lia.
Qed.

(** [a / b] for [0 <= a <= b] is a float in [0.0, 1.0]. *)
Lemma int_truediv_at_most_one (a b : Z) :
  0 <= a <= b -> 0 < b < 2 ^ 63 ->
  exists f, Py.int_truediv a b = Ok f /\ at_most_one f.
Proof.
  intros Ha Hb. unfold Py.int_truediv.
  replace (b =? 0) with false by (symmetry; apply Z.eqb_neq; lia).
  destruct (Z.eq_dec a 0) as [-> | Hnz].
  { destruct b as [| pb | pb]; try lia. cbn. eexists. split; reflexivity. }
  assert (Hda : 1 <= Zdigits2 a) by (destruct a; cbn [Zdigits2]; lia).
  assert (Hdb : Zdigits2 b <= 63) by (apply Zdigits2_le; lia).
  assert (Hdab : Zdigits2 a <= Zdigits2 b).
  { apply Zdigits2_le; [apply Zdigits2_nonneg |].
    pose proof (Zdigits2_upper b ltac:(lia)). lia. }
  pose proof (SFdiv_core_of_ints a b ltac:(lia) ltac:(lia) ltac:(lia) ltac:(lia))
    as Hcore. cbv zeta in Hcore.
  pose proof (SFdiv_core_quotient_bits a b ltac:(lia) ltac:(lia) ltac:(lia))
    as Hq54.
  set (k := 53 + Zdigits2 b - Zdigits2 a) in *.
  assert (Hk : 53 <= k <= 116) by (subst k; lia).
  set (K := 2 ^ k) in *.
  assert (HK : 0 < K) by (apply Z.pow_pos_nonneg; lia).
  set (Y := a * K) in *.
  assert (HY : 0 <= Y) by (subst Y; nia).
  destruct a as [| pa | pa]; try lia. destruct b as [| pb | pb]; try lia.
  cbn [Py.exact SFdiv xorb]. rewrite Hcore.
  pose proof (Z.mod_pos_bound Y (Zpos pb) ltac:(lia)) as Hmod.
  pose proof (new_location_tracks (Zpos pb) (Y mod Zpos pb) (Y / Zpos pb) Y
                ltac:(lia) Hmod (Z.div_mod Y (Zpos pb) ltac:(lia))) as Ht.
  destruct (binary_round_aux_result (Y / Zpos pb) (- k) _ Y (Zpos pb)
              ltac:(lia) HY Ht)
    as (n1 & n2 & m2 & Hn1 & Hn2 & Hmax1 & Hmax2 & Hr1 & Hr2 & Hr3 & Hres).
  assert (Hdq : Zdigits2 (Y / Zpos pb) <= 54).
  { apply Zdigits2_le; [lia |]. split; [apply Z.div_pos; lia | exact Hq54]. }
  assert (Hn1' : n1 <= 1).
  { unfold fexp, emin, Py.prec, Py.emax in Hmax1. lia. }
  set (Q := 2 ^ n1) in *.
  assert (HQ : 0 < Q) by (apply Z.pow_pos_nonneg; lia).
  set (P := 2 ^ (k - n1)).
  assert (HP : 0 < P) by (apply Z.pow_pos_nonneg; lia).
  assert (HPQ : P * Q = K).
  { subst P Q K. rewrite <- Z.pow_add_r by lia. f_equal; lia. }
  (* the rounded mantissa does not pass 2 ^ (k - n1) *)
  assert (Hfloor : Y / (Zpos pb * Q) <= P).
  { apply Z.div_le_upper_bound; [nia |]. subst Y.
    replace (Zpos pb * Q * P) with (Zpos pb * K) by (rewrite <- HPQ; ring). nia. }
  assert (Hm2P : 0 <= m2 <= P).
  { pose proof (Z.div_pos Y (Zpos pb * Q) HY ltac:(nia)) as H0.
    split; [lia |].
    destruct (Z.eq_dec (Y / (Zpos pb * Q)) P) as [Heq | Hne]; [| lia].
    rewrite Hr3; [lia |].
    pose proof (Z.div_mod Y (Zpos pb * Q) ltac:(nia)) as Hdm.
    pose proof (Z.mod_pos_bound Y (Zpos pb * Q) ltac:(nia)) as Hmb.
    rewrite Heq in Hdm.
    assert (Y <= Zpos pb * Q * P)
      by (subst Y; replace (Zpos pb * Q * P) with (Zpos pb * K)
            by (rewrite <- HPQ; ring); nia).
    lia. }
  assert (Hdm2 : Zdigits2 m2 <= k - n1 + 1).
  { apply Zdigits2_le; [lia |]. split; [lia |].
    rewrite Z.pow_add_r by lia. fold P. change (2 ^ 1) with 2. lia. }
  assert (He3 : - k + n1 + n2 <= 0).
  { unfold fexp, emin, Py.prec, Py.emax in Hmax2. lia. }
  rewrite Hres by (unfold Py.emax, Py.prec; lia).
  assert (H2n : 0 < 2 ^ n2) by (apply Z.pow_pos_nonneg; lia).
  assert (Hm3 : 0 <= m2 / 2 ^ n2 <= 2 ^ (- (- k + n1 + n2))).
  { split; [apply Z.div_pos; lia |].
    apply Z.div_le_upper_bound; [lia |].
    rewrite <- Z.pow_add_r by lia.
    replace (n2 + - (- k + n1 + n2)) with (k - n1) by lia. fold P. lia. }
  destruct (m2 / 2 ^ n2) as [| p3 | p3] eqn:E3; try lia.
  - cbn [Py.is_inf]. eexists. split; reflexivity.
  - cbn [Py.is_inf]. eexists. split; [reflexivity |].
    cbn [at_most_one]. split; [reflexivity |]. split; [lia | lia].
Qed.

Lemma Pos_iter_xO (p d : positive) :
  Zpos (Pos.iter xO p d) = Zpos p * 2 ^ Zpos d.
Proof.
  induction d as [| d IH] using Pos.peano_ind.
  - cbn [Pos.iter]. rewrite (Pos2Z.inj_xO p). change (2 ^ 1) with 2. ring.
  - rewrite Pos.iter_succ, (Pos2Z.inj_xO (Pos.iter xO p d)), IH, Pos2Z.inj_succ.
    rewrite Z.pow_succ_r by lia. ring.
Qed.

(** A mantissa of exactly 53 bits at an exponent in range is kept as it
    is. *)
Lemma binary_round_aux_canonical (s : bool) (m : positive) (e : Z) :
  Zpos (digits2_pos m) = 53 -> -1074 <= e <= 971 ->
  binary_round_aux Py.prec Py.emax s (Zpos m) e loc_Exact = S754_finite s m e.
Proof.
  intros Hd He. unfold binary_round_aux, shr_fexp.
  cbn [Zdigits2]. rewrite Hd.
  replace (fexp Py.prec Py.emax (53 + e) - e) with 0
    by (unfold fexp, emin, Py.prec, Py.emax; lia).
  cbn [shr shr_record_of_loc shr_m loc_of_shr_record round_nearest_even Zdigits2].
  rewrite Hd.
  replace (fexp Py.prec Py.emax (53 + e) - e) with 0
    by (unfold fexp, emin, Py.prec, Py.emax; lia).
  cbn [shr shr_record_of_loc shr_m].
  replace (e <=? Py.emax - Py.prec) with true
    by (symmetry; apply Z.leb_le; unfold Py.emax, Py.prec; lia).
  reflexivity.
Qed.

(** [float(c)] is exact for [0 < c < 2 ^ 53]. *)
Lemma float_of_int_exact (c : Z) :
  0 < c < 2 ^ 53 ->
  exists (m : positive) (s : Z),
    Py.float_of_int c = Ok (S754_finite false m (- s)) /\
    0 <= s <= 52 /\ Zpos m = c * 2 ^ s.
Proof.
  intros Hc. destruct c as [| p | p]; try lia.
  unfold Py.float_of_int. cbn [binary_normalize]. unfold binary_round.
  pose proof (digits2_pos_bounds p) as [Hlo Hhi].
  assert (Hd : 1 <= Zpos (digits2_pos p) <= 53).
  { split; [lia |]. pose proof (Zdigits2_le (Zpos p) 53 ltac:(lia) ltac:(lia)).
    cbn [Zdigits2] in *. lia. }
  unfold shl_align.
  replace (fexp Py.prec Py.emax (Zpos (digits2_pos p) + 0) - 0)
    with (Zpos (digits2_pos p) - 53)
    by (unfold fexp, emin, Py.prec, Py.emax; lia).
  destruct (Zpos (digits2_pos p) - 53) as [| d | d] eqn:Ed; try lia.
  - rewrite binary_round_aux_canonical by lia. cbn [Py.is_inf].
    exists p, 0. split; [reflexivity |]. split; [lia |].
    change (2 ^ 0) with 1. lia.
  - replace (fexp Py.prec Py.emax (Zpos (digits2_pos p) + 0)) with (- Zpos d)
      by (unfold fexp, emin, Py.prec, Py.emax; lia).
    rewrite binary_round_aux_canonical.
    + cbn [Py.is_inf]. exists (Pos.iter xO p d), (Zpos d).
      split; [reflexivity |]. split; [lia |]. apply Pos_iter_xO.
    + rewrite digits2_pos_iter_xO. lia.
    + lia.
Qed.

(** The product of a float in [0.0, 1.0] with an exactly converted
    integer, cut to an integer, lies between 0 and that integer. *)
Lemma int_of_scaled (f : Py.float) (c : Z) :
  at_most_one f -> 0 < c < 2 ^ 53 ->
  exists x n,
    Py.float_of_int c = Ok x /\
    Py.int_of_float (Py.float_mul f x) = Ok n /\ 0 <= n <= c.
Proof.
  intros Hf Hc.
  destruct (float_of_int_exact c Hc) as (mc & s & Hx & Hs & Hmc).
  eexists. rewrite Hx.
  destruct f as [sf | | | sf mf ef]; cbn [at_most_one] in Hf; try contradiction.
  - subst sf. exists 0. split; [reflexivity |]. cbn. split; [reflexivity | lia].
  - destruct Hf as (-> & Hef & Hmf).
    unfold Py.float_mul. cbn [SFmul xorb].
    set (Y := Zpos (mf * mc)).
    assert (HYdef : Y = Zpos mf * Zpos mc) by (subst Y; apply Pos2Z.inj_mul).
    assert (HY : 0 <= Y) by lia.
    pose proof (exact_record_tracks Y) as Ht.
    destruct (int_of_rounded Y (ef + - s) loc_Exact Y 1 ltac:(lia) HY Ht)
      as (n1 & m2 & Hn1 & Hmax1 & Hr1 & _ & Hr3 & Hint).
    rewrite Z.mul_1_l in *.
    set (E := 2 ^ (- ef)) in *.
    assert (HE : 0 < E) by (apply Z.pow_pos_nonneg; lia).
    set (S2 := 2 ^ s) in *.
    assert (HS2 : 0 < S2) by (apply Z.pow_pos_nonneg; lia).
    (* the product is at most c * 2 ^ (s - ef) *)
    assert (HYle : Y <= c * (S2 * E)) by (rewrite HYdef, Hmc; nia).
    assert (HSE : S2 * E = 2 ^ (s - ef)).
    { subst S2 E. rewrite <- Z.pow_add_r by lia. f_equal; lia. }
    assert (HdY : Zdigits2 Y <= 53 + (s - ef)).
    { apply Zdigits2_le; [lia |]. split; [lia |].
      rewrite Z.pow_add_r by lia. rewrite <- HSE. nia. }
    assert (Hen1 : ef + - s + n1 <= 0).
    { unfold fexp, emin, Py.prec, Py.emax in Hmax1. lia. }
    set (t := - (ef + - s + n1)) in *.
    assert (Ht0 : 0 <= t) by (subst t; lia).
    set (T := 2 ^ t).
    assert (HT : 0 < T) by (apply Z.pow_pos_nonneg; lia).
    set (Q := 2 ^ n1) in *.
    assert (HQ : 0 < Q) by (apply Z.pow_pos_nonneg; lia).
    assert (HTQ : T * Q = S2 * E).
    { rewrite HSE. subst T Q. rewrite <- Z.pow_add_r by lia. f_equal; lia. }
    assert (Hfloor : Y / Q <= c * T).
    { apply Z.div_le_upper_bound; [lia |].
      replace (Q * (c * T)) with (c * (T * Q)) by ring. rewrite HTQ. exact HYle. }
    assert (Hm2 : 0 <= m2 <= c * T).
    { pose proof (Z.div_pos Y Q HY HQ) as H0. split; [lia |].
      destruct (Z.eq_dec (Y / Q) (c * T)) as [Heq | Hne]; [| lia].
      rewrite Hr3; [lia |].
      pose proof (Z.div_mod Y Q ltac:(lia)) as Hdm.
      pose proof (Z.mod_pos_bound Y Q HQ) as Hmb.
      rewrite Heq in Hdm.
      assert (Y <= Q * (c * T))
        by (replace (Q * (c * T)) with (c * (T * Q)) by ring; rewrite HTQ; exact HYle).
      lia. }
    assert (Hdm2 : Zdigits2 m2 <= 53 + t).
    { apply Zdigits2_le; [lia |]. split; [lia |].
      rewrite Z.pow_add_r by lia. fold T. nia. }
    rewrite Hint by (unfold fexp, emin, Py.prec, Py.emax; fold t; lia).
    fold t. fold T. eexists. split; [reflexivity |]. split; [reflexivity |].
    split; [apply Z.div_pos; lia |].
    apply Z.div_le_upper_bound; [lia |]. nia.
Qed.

(** [int((a / b) * c)] is defined and lies in [0, c] whenever
    [0 <= a <= b] and [c] converts exactly. *)
Lemma int_scale_bounds (a b c : Z) :
  0 <= a <= b -> 0 < b < 2 ^ 63 -> 0 < c < 2 ^ 53 ->
  exists n, Py.int_scale a b c = Ok n /\ 0 <= n <= c.
Proof.
  intros Ha Hb Hc. unfold Py.int_scale.
  destruct (int_truediv_at_most_one a b Ha Hb) as (f & -> & Hf).
  destruct (int_of_scaled f c Hf Hc) as (x & n & -> & Hn & Hr).
  exists n. split; assumption.
Qed.

(** [int((a / a) * c)] is [c], and [int((0 / b) * c)] is 0. *)
Lemma int_scale_whole (a c : Z) :
  0 < a < 2 ^ 63 -> 0 < c < 2 ^ 53 -> Py.int_scale a a c = Ok c.
Proof.
  intros Ha Hc. unfold Py.int_scale.
  assert (Hdiv : Py.int_truediv a a = Ok Py.f1).
  { unfold Py.int_truediv.
    replace (a =? 0) with false by (symmetry; apply Z.eqb_neq; lia).
    pose proof (SFdiv_core_of_ints a a ltac:(lia) ltac:(lia) ltac:(lia) ltac:(lia))
      as Hcore. cbv zeta in Hcore.
    replace (53 + Zdigits2 a - Zdigits2 a) with 53 in Hcore by lia.
    rewrite (Z.mul_comm a (2 ^ 53)) in Hcore.
    rewrite Z.div_mul, Z.mod_mul in Hcore by lia.
    assert (Hloc : new_location a 0 = loc_Exact).
    { unfold new_location, new_location_even, new_location_odd.
      destruct (Z.even a); reflexivity. }
    rewrite Hloc in Hcore.
    destruct a as [| pa | pa]; try lia.
    cbn [Py.exact SFdiv xorb]. rewrite Hcore. vm_compute. reflexivity. }
  rewrite Hdiv.
  destruct (float_of_int_exact c Hc) as (mc & s & -> & Hs & Hmc).
  change Py.f1 with (S754_finite false 4503599627370496 (-52)).
  unfold Py.float_mul. cbn [SFmul xorb].
  set (Y := Zpos (4503599627370496 * mc)).
  assert (HYdef : Y = 2 ^ 52 * Zpos mc) by (subst Y; apply Pos2Z.inj_mul).
  assert (HY : 0 <= Y) by lia.
  destruct (int_of_rounded Y (-52 + - s) loc_Exact Y 1 ltac:(lia) HY
              (exact_record_tracks Y))
    as (n1 & m2 & Hn1 & Hmax1 & _ & _ & Hr3 & Hint).
  rewrite Z.mul_1_l in *.
  set (S2 := 2 ^ s) in *.
  assert (HS2 : 0 < S2) by (apply Z.pow_pos_nonneg; lia).
  assert (HdY : Zdigits2 Y <= 105 + s).
  { apply Zdigits2_le; [lia |]. split; [lia |].
    replace (105 + s) with (52 + 53 + s) by lia.
    rewrite !Z.pow_add_r by lia. fold S2. rewrite HYdef, Hmc.
    assert (0 < 2 ^ 52) by reflexivity. nia. }
  assert (Hn52 : n1 <= 52 + s).
  { unfold fexp, emin, Py.prec, Py.emax in Hmax1. lia. }
  set (Q := 2 ^ n1) in *.
  assert (HQ : 0 < Q) by (apply Z.pow_pos_nonneg; lia).
  set (T := 2 ^ (52 + s - n1)).
  assert (HT : 0 < T) by (apply Z.pow_pos_nonneg; lia).
  assert (HTQ : T * Q = 2 ^ 52 * S2).
  { subst T Q S2. rewrite <- !Z.pow_add_r by lia. f_equal; lia. }
  assert (HYQ : Y = c * T * Q).
  { rewrite HYdef, Hmc. rewrite <- Z.mul_assoc, HTQ. ring. }
  assert (Hm2 : m2 = c * T).
  { rewrite Hr3; rewrite HYQ; [apply Z.div_mul; lia | apply Z.mod_mul; lia]. }
  assert (Hdm2 : Zdigits2 m2 <= 53 + (52 + s - n1)).
  { apply Zdigits2_le; [lia |]. split; [nia |].
    rewrite Z.pow_add_r by lia. fold T. nia. }
  rewrite Hint by (unfold fexp, emin, Py.prec, Py.emax; lia).
  f_equal. replace (- (-52 + - s + n1)) with (52 + s - n1) by lia. fold T.
  rewrite Hm2. apply Z.div_mul. lia.
Qed.

Lemma int_scale_none (b c : Z) :
  0 < b -> 0 < c < 2 ^ 53 -> Py.int_scale 0 b c = Ok 0.
Proof.
  intros Hb Hc. unfold Py.int_scale, Py.int_truediv.
  replace (b =? 0) with false by (symmetry; apply Z.eqb_neq; lia).
  destruct b as [| pb | pb]; try lia. cbn [Py.exact SFdiv Py.is_inf xorb].
  destruct (float_of_int_exact c Hc) as (mc & s & -> & _). reflexivity.
Qed.

(** [format_ms] in integer arithmetic. *)
Lemma format_ms_floor (ms : Z) : ms < 2 ^ 53 -> format_ms ms = Ok (mmss ms).
Proof.
  intros H. unfold format_ms, mmss.
  destruct (ms <? 0) eqn:Hneg; [reflexivity |]. apply Z.ltb_ge in Hneg.
  destruct (int_truediv_floor ms 1000) as (q & -> & Hq);
    [lia | split; [lia | reflexivity] |].
  cbn [rbind]. rewrite Hq. reflexivity.
Qed.

(** ** What the display shows *)

(** X10: for every time below [2 ^ 53] ms, [format_ms] returns and shows
    whole minutes and seconds exactly, the float division notwithstanding:
    "--:--" for a negative time, else the minutes [ms // 60000] and the
    seconds [(ms // 1000) % 60], each padded to two digits; a duration
    notification writes just that to the duration label and nothing
    else. *)
Theorem format_ms_shows_exact_minutes_and_seconds (ms : Z) (w : Window) :
  ms < 2 ^ 53 ->
  format_ms ms = Ok (mmss ms) /\
  (0 <= ms ->
   mmss ms = fmt_02d (ms / 60000) ++ ":" ++ fmt_02d (ms / 1000 mod 60) /\
   0 <= ms / 1000 mod 60 < 60) /\
  (ms < 0 -> mmss ms = "--:--") /\
  on_duration_changed ms w = (Ok tt, set_duration_label (mmss ms) w).
Proof.
  intros H. pose proof (format_ms_floor ms H) as Hf.
  split; [exact Hf |]. split; [| split].
  - intros H0. unfold mmss.
    replace (ms <? 0) with false by (symmetry; apply Z.ltb_ge; lia).
    rewrite Z.div_div by lia. split; [reflexivity |].
    apply Z.mod_pos_bound. lia.
  - intros Hneg. unfold mmss.
    replace (ms <? 0) with true by (symmetry; apply Z.ltb_lt; lia). reflexivity.
  - unfold on_duration_changed, bind, lift. rewrite Hf. reflexivity.
Qed.

(** A value inside the slider's range is taken by [setValue]. *)
Lemma fits_int_in_range (val : Z) : 0 <= val <= 1000 -> fits_int val = true.
Proof.
  intros H. unfold fits_int.
  replace (- 2 ^ 31 <=? val) with true by (symmetry; apply Z.leb_le; lia).
  replace (val <? 2 ^ 31) with true by (symmetry; apply Z.ltb_lt; lia).
  reflexivity.
Qed.

Section Display.

Variable engine : Command -> QMediaPlayer -> QMediaPlayer.

(** A position notification outside a drag, with the duration known. *)
Lemma on_position_changed_idle (pos : Z) (w : Window) :
  is_seeking w = false ->
  0 < duration (player w) < 2 ^ 63 ->
  0 <= pos <= duration (player w) -> pos < 2 ^ 53 ->
  exists val,
    Py.int_scale pos (duration (player w)) 1000 = Ok val /\
    0 <= val <= 1000 /\
    on_position_changed pos w =
    (Ok tt, set_time_label (mmss pos) (set_seek_slider val w)).
Proof.
  intros Hs Hd Hp Hp53.
  destruct (int_scale_bounds pos (duration (player w)) 1000 Hp Hd)
    as (val & Hval & Hr); [split; reflexivity |].
  exists val. split; [exact Hval |]. split; [exact Hr |].
  unfold on_position_changed, bind, read, lift, seek_slider_setValue, write.
  rewrite Hs.
  replace (duration (player w) >? 0) with true by (symmetry; apply Z.gtb_lt; lia).
  rewrite Hval, (format_ms_floor pos Hp53). cbv beta iota.
  rewrite (fits_int_in_range val Hr).
  replace (Z.max 0 (Z.min 1000 val)) with val by lia. reflexivity.
Qed.

(** The same with the duration unknown: the slider is left alone. *)
Lemma on_position_changed_idle_unknown (pos : Z) (w : Window) :
  is_seeking w = false ->
  duration (player w) <= 0 -> pos < 2 ^ 53 ->
  on_position_changed pos w = (Ok tt, set_time_label (mmss pos) w).
Proof.
  intros Hs Hd Hp53.
  unfold on_position_changed, bind, read, lift, write, ret.
  rewrite Hs.
  replace (duration (player w) >? 0) with false
    by (symmetry; rewrite Z.gtb_ltb; apply Z.ltb_ge; lia).
  rewrite (format_ms_floor pos Hp53). reflexivity.
Qed.

(** X12: outside a drag, a position notification [pos] within a known
    duration [d] returns normally, shows the exact minutes and seconds of
    [pos] and puts the seek slider at [int((pos / d) * 1000)], which lies
    in 0..1000 of itself, is 0 at the start and 1000 at the end; with the
    duration unknown (zero or negative) only the time label changes. *)
Theorem position_notification_moves_the_display (pos : Z) (w : Window) :
  is_seeking w = false ->
  pos < 2 ^ 53 ->
  duration (player w) < 2 ^ 63 ->
  (0 < duration (player w) -> 0 <= pos <= duration (player w) ->
   exists val,
     Py.int_scale pos (duration (player w)) 1000 = Ok val /\
     0 <= val <= 1000 /\
     (pos = 0 -> val = 0) /\
     (pos = duration (player w) -> val = 1000) /\
     on_position_changed pos w =
     (Ok tt, set_time_label (mmss pos) (set_seek_slider val w))) /\
  (duration (player w) <= 0 ->
   on_position_changed pos w = (Ok tt, set_time_label (mmss pos) w)).
Proof.
  intros Hs Hp53 Hd63. split.
  - intros Hd Hp.
    destruct (on_position_changed_idle pos w Hs (conj Hd Hd63) Hp Hp53)
      as (val & Hval & Hr & Hrun).
    exists val. split; [exact Hval |]. split; [exact Hr |].
    split; [| split; [| exact Hrun]].
    + intros ->. rewrite int_scale_none in Hval by (try split; try reflexivity; lia).
      congruence.
    + intros ->. rewrite int_scale_whole in Hval by (try split; try reflexivity; lia).
      congruence.
  - intros Hd. apply on_position_changed_idle_unknown; assumption.
Qed.

(** X13: outside a drag, a tick of the periodic timer shows what a
    notification of the player's current position would show, and writes
    the exact minutes and seconds of the duration to the duration label. *)
Theorem periodic_update_repeats_the_notification (w : Window) :
  is_seeking w = false ->
  position (player w) < 2 ^ 53 ->
  duration (player w) < 2 ^ 53 ->
  duration (player w) <= 0 \/ 0 <= position (player w) <= duration (player w) ->
  exists w1,
    on_position_changed (position (player w)) w = (Ok tt, w1) /\
    _periodic_update w =
    (Ok tt, set_duration_label (mmss (duration (player w))) w1).
Proof.
  intros Hs Hp53 Hd53 Hcase.
  assert (Hd63 : duration (player w) < 2 ^ 63)
    by (apply Z.lt_trans with (1 := Hd53); reflexivity).
  destruct (Z_lt_le_dec 0 (duration (player w))) as [Hpos | Hnon].
  - destruct Hcase as [Hc | Hc]; [lia |].
    destruct (on_position_changed_idle _ w Hs (conj Hpos Hd63) Hc Hp53)
      as (val & Hval & Hr & Hrun).
    eexists. split; [exact Hrun |].
    unfold _periodic_update, bind, read, lift, seek_slider_setValue, write.
    rewrite Hs. cbn [negb].
    replace (duration (player w) >? 0) with true by (symmetry; apply Z.gtb_lt; lia).
    rewrite Hval, (format_ms_floor _ Hp53). cbv beta iota.
    rewrite (fits_int_in_range val Hr).
    replace (Z.max 0 (Z.min 1000 val)) with val by lia.
    cbn [duration player set_time_label set_seek_slider].
    rewrite (format_ms_floor _ Hd53). reflexivity.
  - eexists. split; [apply on_position_changed_idle_unknown; assumption |].
    unfold _periodic_update, bind, read, lift, write, ret.
    rewrite Hs. cbn [negb].
    replace (duration (player w) >? 0) with false
      by (symmetry; rewrite Z.gtb_ltb; apply Z.ltb_ge; lia).
    rewrite (format_ms_floor _ Hp53).
    cbn [duration player set_time_label].
    rewrite (format_ms_floor _ Hd53). reflexivity.
Qed.

(** ** Releasing the seek slider, and stopping *)

(** [setPosition] with a target that fits 64 bits reaches the player. *)
Lemma setPosition_fits (ms : Z) (w : Window) :
  - 2 ^ 63 <= ms < 2 ^ 63 ->
  setPosition engine ms w = (Ok tt, sent engine (player_setPosition ms) w).
Proof.
  intros H. unfold setPosition, fits_qint64.
  replace (- 2 ^ 63 <=? ms) with true by (symmetry; apply Z.leb_le; lia).
  replace (ms <? 2 ^ 63) with true by (symmetry; apply Z.ltb_lt; lia).
  reflexivity.
Qed.

(** Every target is defined; the release goes on with it as far as the
    player takes it: a target from [2 ^ 63] on is refused, and the
    exception leaves the handler before [is_seeking] is written. *)
Lemma _seeker_released_outcome (w : Window) :
  0 <= seek_slider w <= 1000 ->
  0 < duration (player w) < 2 ^ 63 ->
  exists ms,
    Py.int_scale (seek_slider w) 1000 (duration (player w)) = Ok ms /\
    0 <= ms /\
    (ms < 2 ^ 63 ->
     _seeker_released engine w =
     (Ok tt, set_is_seeking false (sent engine (player_setPosition ms) w))) /\
    (2 ^ 63 <= ms -> _seeker_released engine w = (Raise OverflowError, w)).
Proof.
  intros Hv Hd.
  destruct (int_scale_seek_total _ _ Hv Hd) as (ms & Hms & Hnn).
  exists ms. split; [exact Hms |]. split; [exact Hnn |]. split; intros Hfit.
  - unfold _seeker_released, bind, read, lift.
    replace (duration (player w) >? 0) with true by (symmetry; apply Z.gtb_lt; lia).
    rewrite Hms. cbv beta iota. rewrite setPosition_fits by lia. reflexivity.
  - unfold _seeker_released, bind, read, lift.
    replace (duration (player w) >? 0) with true by (symmetry; apply Z.gtb_lt; lia).
    rewrite Hms. cbv beta iota. unfold setPosition, fits_qint64.
    replace (ms <? 2 ^ 63) with false by (symmetry; apply Z.ltb_ge; lia).
    rewrite Bool.andb_false_r. reflexivity.
Qed.

(** With a known duration below [2 ^ 53] ms the target lies inside the
    track, so the release sends one [setPosition]. *)
Lemma _seeker_released_seeks (w : Window) :
  0 <= seek_slider w <= 1000 ->
  0 < duration (player w) < 2 ^ 53 ->
  exists ms,
    Py.int_scale (seek_slider w) 1000 (duration (player w)) = Ok ms /\
    0 <= ms <= duration (player w) /\
    _seeker_released engine w =
    (Ok tt, set_is_seeking false (sent engine (player_setPosition ms) w)).
Proof.
  intros Hv Hd.
  assert (H53 : 2 ^ 53 < 2 ^ 63) by reflexivity.
  destruct (int_scale_bounds (seek_slider w) 1000 (duration (player w)))
    as (ms & Hms & Hr); [exact Hv | split; reflexivity | exact Hd |].
  exists ms. split; [exact Hms |]. split; [exact Hr |].
  destruct (_seeker_released_outcome w Hv) as (ms' & Hms' & _ & Hrun & _);
    [lia |].
  rewrite Hms in Hms'. inversion Hms'. subst ms'.
  apply Hrun. lia.
Qed.

(** Without a duration it sends nothing. *)
Lemma _seeker_released_skips (w : Window) :
  duration (player w) <= 0 ->
  _seeker_released engine w = (Ok tt, set_is_seeking false w).
Proof.
  intros Hd. unfold _seeker_released, bind, read.
  replace (duration (player w) >? 0) with false; [reflexivity |].
  symmetry. rewrite Z.gtb_ltb. apply Z.ltb_ge. lia.
Qed.

(** A release that returns has reset the flag. *)
Lemma _seeker_released_returned (w w' : Window) :
  _seeker_released engine w = (Ok tt, w') -> is_seeking w' = false.
Proof.
  unfold _seeker_released, bind, read, lift, setPosition, call, write, ret.
  destruct (duration (player w) >? 0).
  - destruct (Py.int_scale (seek_slider w) 1000 (duration (player w)))
      as [ms | e]; [| discriminate].
    destruct (fits_qint64 ms); [| discriminate].
    intros H. inversion H. reflexivity.
  - intros H. inversion H. reflexivity.
Qed.

(** C2 (as the code has it): on release with the slider at [value] in
    0..1000 and a known positive duration [D] below [2 ^ 53] ms, exactly
    one seek command is sent, with target [int((value / 1000) * D)], the
    float product cut toward zero, which lies in [0, D]; with a duration
    that is zero or negative no command is sent; either way the handler
    returns and [is_seeking] is false afterwards. *)
Theorem release_seeks_once_with_truncated_target (w : Window) :
  0 <= seek_slider w <= 1000 ->
  duration (player w) < 2 ^ 53 ->
  (0 < duration (player w) ->
   exists ms w',
     Py.int_scale (seek_slider w) 1000 (duration (player w)) = Ok ms /\
     0 <= ms <= duration (player w) /\
     _seeker_released engine w = (Ok tt, w') /\
     player_calls w' = (player_calls w ++ [player_setPosition ms])%list /\
     is_seeking w' = false) /\
  (duration (player w) <= 0 ->
   exists w',
     _seeker_released engine w = (Ok tt, w') /\
     player_calls w' = player_calls w /\
     player w' = player w /\
     is_seeking w' = false).
Proof.
  intros Hv Hd. split.
  - intros Hpos.
    destruct (_seeker_released_seeks w Hv (conj Hpos Hd)) as (ms & Hms & Hr & Hrun).
    exists ms. eexists. split; [exact Hms |]. split; [exact Hr |].
    split; [exact Hrun |]. split; reflexivity.
  - intros Hnon. eexists. split; [apply _seeker_released_skips; exact Hnon |].
    repeat split.
Qed.

(** C9 (as the code has it): with the slider in 0..1000 and a duration
    below [2 ^ 53] ms, a release of the seek slider returns with
    [is_seeking] false, and whatever the slider and the duration, a
    release that returns has set it to false; [stop] only sends the stop
    command to the player and leaves [is_seeking] as it was. *)
Theorem release_resets_the_flag_and_stop_keeps_it (w : Window) :
  0 <= seek_slider w <= 1000 ->
  duration (player w) < 2 ^ 53 ->
  (exists w', _seeker_released engine w = (Ok tt, w') /\ is_seeking w' = false) /\
  (forall v v', _seeker_released engine v = (Ok tt, v') ->
   is_seeking v' = false) /\
  stop engine w = (Ok tt, sent engine player_stop w) /\
  is_seeking (sent engine player_stop w) = is_seeking w /\
  player_calls (sent engine player_stop w) =
  (player_calls w ++ [player_stop])%list.
Proof.
  intros Hv Hd. split; [| split; [| repeat split]].
  - destruct (Z_lt_le_dec 0 (duration (player w))) as [Hpos | Hnon].
    + destruct (_seeker_released_seeks w Hv (conj Hpos Hd)) as (ms & _ & _ & Hrun).
      eexists. split; [exact Hrun | reflexivity].
    + eexists. split; [apply _seeker_released_skips; exact Hnon | reflexivity].
  - apply _seeker_released_returned.
Qed.

(** X11: a release of the seek slider seeks inside the track: with the
    slider in 0..1000 and a known duration [D] below [2 ^ 53] ms, the one
    target sent lies in [0, D]; it is 0 with the slider at its left end and
    exactly [D] at its right end. *)
Theorem release_seeks_inside_the_track (w : Window) :
  0 <= seek_slider w <= 1000 ->
  0 < duration (player w) < 2 ^ 53 ->
  exists ms,
    _seeker_released engine w =
    (Ok tt, set_is_seeking false (sent engine (player_setPosition ms) w)) /\
    0 <= ms <= duration (player w) /\
    (seek_slider w = 0 -> ms = 0) /\
    (seek_slider w = 1000 -> ms = duration (player w)).
Proof.
  intros Hv Hd.
  destruct (_seeker_released_seeks w Hv Hd) as (ms & Hms & Hr & Hrun).
  exists ms. split; [exact Hrun | split; [exact Hr | split]].
  - intros H0. rewrite H0, int_scale_none in Hms by (try reflexivity; lia).
    congruence.
  - intros H1. rewrite H1, int_scale_whole in Hms by (try split; try reflexivity; lia).
    congruence.
Qed.

(** X14: what is shown during a drag is where the release lands: after
    the slider is moved to [value] and then released, with a known
    duration [D] below [2 ^ 53] ms, the time label shows the exact minutes
    and seconds of the very target [ms] of the one seek command sent, and
    [ms] lies in [0, D]. *)
Theorem drag_previews_the_seek_target (value : Z) (w : Window) :
  0 <= value <= 1000 ->
  0 < duration (player w) < 2 ^ 53 ->
  let w1 := step engine w (seek_slider_sliderMoved value) in
  let w2 := step engine w1 seek_slider_sliderReleased in
  exists ms,
    Py.int_scale value 1000 (duration (player w)) = Ok ms /\
    0 <= ms <= duration (player w) /\
    time_label w1 = mmss ms /\
    player_calls w1 = player_calls w /\
    time_label w2 = mmss ms /\
    player_calls w2 = (player_calls w ++ [player_setPosition ms])%list /\
    is_seeking w2 = false.
Proof.
  intros Hv Hd w1 w2.
  assert (H53 : 2 ^ 53 < 2 ^ 63) by reflexivity.
  destruct (int_scale_bounds value 1000 (duration (player w)))
    as (ms & Hms & Hr); [exact Hv | split; reflexivity | exact Hd |].
  assert (Hms53 : ms < 2 ^ 53) by lia.
  exists ms. split; [exact Hms |]. split; [exact Hr |].
  assert (Hw1 : w1 = set_time_label (mmss ms) (set_seek_slider value w)).
  { subst w1. unfold step, exec. cbn [arrive handler].
    replace (Z.max 0 (Z.min 1000 value)) with value by lia.
    unfold on_seek_slider_moved, bind, read, lift, write.
    cbn [duration player set_seek_slider].
    replace (duration (player w) >? 0) with true by (symmetry; apply Z.gtb_lt; lia).
    rewrite Hms, (format_ms_floor ms Hms53). reflexivity. }
  assert (Hw2 : w2 = set_is_seeking false
                       (sent engine (player_setPosition ms) w1)).
  { subst w2. unfold step, exec. cbn [arrive handler].
    destruct (_seeker_released_seeks w1) as (ms' & Hms' & _ & ->).
    - rewrite Hw1. cbn [seek_slider set_time_label set_seek_slider]. exact Hv.
    - rewrite Hw1. cbn [duration player set_time_label set_seek_slider]. exact Hd.
    - rewrite Hw1 in Hms'.
      cbn [duration player set_time_label set_seek_slider seek_slider] in Hms'.
      rewrite Hms in Hms'. inversion Hms'. reflexivity. }
  rewrite Hw2, Hw1. repeat split.
Qed.

End Display.

Lemma release_seeks_once_with_truncated_target_witness :
  player_calls (exec (_seeker_released demo_engine) (dragging 500 180000)) =
  [player_setPosition 90000] /\
  player_calls (exec (_seeker_released demo_engine) (dragging 500 0)) = [].
Proof.
  split.
  - destruct (release_seeks_once_with_truncated_target demo_engine
                (dragging 500 180000)) as [H _];
      [vm_compute; split; discriminate | reflexivity |].
    destruct (H eq_refl) as (ms & w' & Hms & _ & Hrun & Hcalls & _).
    unfold exec. rewrite Hrun. cbn [snd]. rewrite Hcalls.
    vm_compute in Hms. inversion Hms. reflexivity.
  - destruct (release_seeks_once_with_truncated_target demo_engine
                (dragging 500 0)) as [_ H];
      [vm_compute; split; discriminate | reflexivity |].
    destruct H as (w' & Hrun & Hcalls & _); [vm_compute; discriminate |].
    unfold exec. rewrite Hrun. cbn [snd]. rewrite Hcalls. reflexivity.
Defined.

(** C2, as stated, fails: released at fraction 0.001 of a duration of
    1900 ms, the one seek command goes to 1 ms; [round(1.9)] is 2. *)
Lemma release_target_is_not_rounded :
  player_calls (exec (_seeker_released demo_engine) (dragging 1 1900)) =
  [player_setPosition 1] /\
  spec_round_target 1 1900 = 2.
Proof. split; vm_compute; reflexivity. Qed.

Lemma release_resets_the_flag_and_stop_keeps_it_witness :
  is_seeking (exec (_seeker_released demo_engine) (dragging 500 180000)) = false /\
  is_seeking (exec (stop demo_engine) abc) = false.
Proof.
  destruct (release_resets_the_flag_and_stop_keeps_it demo_engine
              (dragging 500 180000)) as [(w' & Hrun & Hflag) _];
    [vm_compute; split; discriminate | reflexivity |].
  destruct (release_resets_the_flag_and_stop_keeps_it demo_engine abc)
    as (_ & _ & Hstop & Hkeep & _);
    [vm_compute; split; discriminate | reflexivity |].
  unfold exec. rewrite Hrun, Hstop. cbn [snd]. rewrite Hkeep.
  split; [exact Hflag | reflexivity].
Defined.

(** C9, as stated, fails: [stop] in mid-drag leaves [is_seeking] set. *)
Lemma stop_in_mid_drag_keeps_the_flag :
  is_seeking (dragging 500 180000) = true /\
  is_seeking (exec (stop demo_engine) (dragging 500 180000)) = true /\
  player_calls (exec (stop demo_engine) (dragging 500 180000)) = [player_stop].
Proof. repeat split. Qed.

(** At the far end of the 64-bit durations the release is refused: with
    the slider at 1000 and a duration of [2 ^ 63 - 512] ms the target is
    [2 ^ 63], which [setPosition] does not take; nothing is sent and
    [is_seeking] stays set. *)
Example release_beyond_64_bits_is_refused :
  let w := dragging 1000 (2 ^ 63 - 512) in
  Py.int_scale 1000 1000 (2 ^ 63 - 512) = Ok (2 ^ 63) /\
  _seeker_released demo_engine w = (Raise OverflowError, w) /\
  is_seeking w = true.
Proof. vm_compute. repeat split. Qed.

(** Likewise for the slider: a position notification so far beyond the
    duration that the slider value leaves the 32-bit range is refused by
    [setValue], before the time label is written. *)
Example position_far_beyond_the_duration_is_refused :
  let w := set_is_seeking false (dragging 0 1) in
  Py.int_scale (2 ^ 40) 1 1000 = Ok (2 ^ 40 * 1000) /\
  on_position_changed (2 ^ 40) w = (Raise OverflowError, w).
Proof. vm_compute. repeat split. Qed.

Section Buttons.

Variable engine : Command -> QMediaPlayer -> QMediaPlayer.

(** X7: play/pause never moves the selection: while the player plays it
    only sends pause; otherwise, with a file loaded it only sends play
    (the file is not loaded again), and with none loaded and a playlist at
    hand it loads and plays the track at the current index.  In each case
    the current index and the playlist are what they were. *)
Theorem play_pause_keeps_the_selection (w : Window) :
  index_valid w ->
  (playbackState (player w) = PlayingState ->
   play_pause engine w = (Ok tt, sent engine player_pause w)) /\
  (playbackState (player w) <> PlayingState ->
   isLocalFile (source (player w)) = true ->
   play_pause engine w = (Ok tt, sent engine player_play w)) /\
  (playbackState (player w) <> PlayingState ->
   isLocalFile (source (player w)) = false ->
   current_playlist w <> [] ->
   exists file_path,
     getitem (current_playlist w) (current_index w) = Ok file_path /\
     play_pause engine w =
     (Ok tt, played engine (current_index w) file_path w)) /\
  current_index (exec (play_pause engine) w) = current_index w /\
  current_playlist (exec (play_pause engine) w) = current_playlist w.
Proof.
  intros Hv.
  assert (Hneq : playbackState (player w) <> PlayingState ->
                 PlaybackState_eqb (playbackState (player w)) PlayingState = false).
  { destruct (playbackState (player w)); [reflexivity | congruence | reflexivity]. }
  assert (H1 : playbackState (player w) = PlayingState ->
               play_pause engine w = (Ok tt, sent engine player_pause w)).
  { intros Hp. unfold play_pause, bind, read. rewrite Hp. reflexivity. }
  assert (H2 : playbackState (player w) <> PlayingState ->
               isLocalFile (source (player w)) = true ->
               play_pause engine w = (Ok tt, sent engine player_play w)).
  { intros Hp Hs. unfold play_pause, bind, read. cbv beta iota.
    rewrite (Hneq Hp). cbv beta iota. rewrite Hs. reflexivity. }
  assert (H3 : playbackState (player w) <> PlayingState ->
               isLocalFile (source (player w)) = false ->
               current_playlist w <> [] ->
               exists file_path,
                 getitem (current_playlist w) (current_index w) = Ok file_path /\
                 play_pause engine w =
                 (Ok tt, played engine (current_index w) file_path w)).
  { intros Hp Hs Hne.
    pose proof (index_valid_nonempty w Hv Hne) as Hi.
    destruct (play_at_index_in_range engine (current_index w) w Hi)
      as (fp & Hfp & Hrun).
    exists fp. split; [exact Hfp |].
    unfold play_pause, bind, read. cbv beta iota.
    rewrite (Hneq Hp). cbv beta iota. rewrite Hs. cbn [negb]. cbv beta iota.
    rewrite (nonempty_is_empty _ Hne). cbn [negb]. cbv beta iota.
    replace (current_index w >=? 0) with true by (symmetry; apply Z.geb_le; lia).
    exact Hrun. }
  split; [exact H1 |]. split; [exact H2 |]. split; [exact H3 |].
  unfold exec.
  assert (Hplaying : playbackState (player w) = PlayingState \/
                     playbackState (player w) <> PlayingState)
    by (destruct (playbackState (player w)); [right | left | right]; congruence).
  destruct Hplaying as [Hp | Hp]; [rewrite (H1 Hp); split; reflexivity |].
  destruct (Bool.bool_dec (isLocalFile (source (player w))) true) as [Hs | Hs];
    [rewrite (H2 Hp Hs); split; reflexivity |].
  apply not_true_is_false in Hs.
  assert (Hlist : current_playlist w = [] \/ current_playlist w <> [])
    by (destruct (current_playlist w); [left | right]; congruence).
  destruct Hlist as [Hl | Hl].
  - unfold play_pause, bind, read. cbv beta iota.
    rewrite (Hneq Hp). cbv beta iota. rewrite Hs. cbn [negb]. cbv beta iota.
    rewrite Hl. split; [reflexivity | cbn; exact Hl].
  - destruct (H3 Hp Hs Hl) as (fp & _ & ->). split; reflexivity.
Qed.

Lemma prev_track_lands (w : Window) :
  current_playlist w <> [] ->
  0 <= current_index w < len (current_playlist w) ->
  exists fp,
    exec (prev_track engine) w =
    played engine
      (if current_index w - 1 <? 0
       then if repeat_btn w then len (current_playlist w) - 1 else 0
       else current_index w - 1) fp w.
Proof.
  intros Hne Hi. unfold exec. rewrite prev_track_run by assumption.
  pose proof (nonempty_len _ Hne) as Hlen.
  match goal with
  | |- context [play_at_index engine ?i w] =>
      destruct (play_at_index_in_range engine i w) as (fp & _ & ->)
  end.
  - destruct (current_index w - 1 <? 0) eqn:H; [| apply Z.ltb_ge in H; lia].
    destruct (repeat_btn w); lia.
  - exists fp. reflexivity.
Qed.

Lemma next_track_lands (randrange : Z -> Z) (w : Window) :
  current_playlist w <> [] ->
  shuffle_btn w = false ->
  0 <= current_index w < len (current_playlist w) ->
  exists fp,
    exec (next_track engine randrange) w =
    played engine
      (if current_index w + 1 >=? len (current_playlist w)
       then if repeat_btn w then 0 else len (current_playlist w) - 1
       else current_index w + 1) fp w.
Proof.
  intros Hne Hsh Hi. unfold exec. rewrite next_track_run, Hsh by assumption.
  match goal with
  | |- context [play_at_index engine ?i w] =>
      destruct (play_at_index_in_range engine i w) as (fp & _ & ->)
  end.
  - destruct (current_index w + 1 >=? len (current_playlist w)) eqn:H.
    + destruct (repeat_btn w); lia.
    + lia.
  - exists fp. reflexivity.
Qed.

(** X8: with shuffle off, Previous undoes Next and Next undoes Previous
    on the current index, everywhere when repeat is on and away from the
    respective end of the playlist when it is off. *)
Theorem next_and_prev_undo_each_other (randrange : Z -> Z) (w : Window) :
  shuffle_btn w = false ->
  0 <= current_index w < len (current_playlist w) ->
  (repeat_btn w = true \/ current_index w + 1 < len (current_playlist w) ->
   current_index
     (exec (prev_track engine) (exec (next_track engine randrange) w)) =
   current_index w) /\
  (repeat_btn w = true \/ 0 < current_index w ->
   current_index
     (exec (next_track engine randrange) (exec (prev_track engine) w)) =
   current_index w).
Proof.
  intros Hsh Hi.
  assert (Hne : current_playlist w <> []).
  { intros He. rewrite He in Hi. unfold len in Hi. cbn in Hi. lia. }
  split; intros Hc.
  - destruct (next_track_lands randrange w Hne Hsh Hi) as (fp & ->).
    set (i1 := if current_index w + 1 >=? len (current_playlist w)
               then if repeat_btn w then 0 else len (current_playlist w) - 1
               else current_index w + 1).
    assert (Hi1 : 0 <= i1 < len (current_playlist w)).
    { subst i1. destruct (current_index w + 1 >=? len (current_playlist w)) eqn:H;
        [destruct (repeat_btn w) |]; lia. }
    destruct (prev_track_lands (played engine i1 fp w)) as (fp' & ->);
      [exact Hne | exact Hi1 |].
    cbn [played current_index set_status set_song_list sent set_player_calls
         set_player set_current_index current_playlist repeat_btn].
    subst i1.
    destruct (current_index w + 1 >=? len (current_playlist w)) eqn:H.
    + destruct Hc as [Hr | Hlt]; [rewrite Hr | lia].
      change (0 - 1 <? 0) with true. cbv iota. lia.
    + replace (current_index w + 1 - 1 <? 0) with false
        by (symmetry; apply Z.ltb_ge; lia).
      lia.
  - destruct (prev_track_lands w Hne Hi) as (fp & ->).
    set (i1 := if current_index w - 1 <? 0
               then if repeat_btn w then len (current_playlist w) - 1 else 0
               else current_index w - 1).
    assert (Hi1 : 0 <= i1 < len (current_playlist w)).
    { subst i1. destruct (current_index w - 1 <? 0) eqn:H;
        [destruct (repeat_btn w) | apply Z.ltb_ge in H]; lia. }
    destruct (next_track_lands randrange (played engine i1 fp w)) as (fp' & ->);
      [exact Hne | exact Hsh | exact Hi1 |].
    cbn [played current_index set_status set_song_list sent set_player_calls
         set_player set_current_index current_playlist repeat_btn].
    subst i1.
    destruct (current_index w - 1 <? 0) eqn:H.
    + apply Z.ltb_lt in H.
      destruct Hc as [Hr | Hlt]; [rewrite Hr | lia].
      replace (len (current_playlist w) - 1 + 1 >=? len (current_playlist w))
        with true by (symmetry; apply Z.geb_le; lia).
      lia.
    + apply Z.ltb_ge in H.
      replace (current_index w - 1 + 1 >=? len (current_playlist w)) with false
        by (symmetry; rewrite Z.geb_leb; apply Z.leb_gt; lia).
      lia.
Qed.

(** X9: with an empty playlist the four handlers that pick a track do
    nothing: [prev_track], [next_track], [play_at_index] at any index and
    [on_song_clicked] on any item all return normally and leave the
    window, the commands sent included, as it was. *)
Theorem empty_playlist_navigation_does_nothing (w : Window) :
  current_playlist w = [] ->
  prev_track engine w = (Ok tt, w) /\
  (forall randrange, next_track engine randrange w = (Ok tt, w)) /\
  (forall idx, play_at_index engine idx w = (Ok tt, w)) /\
  (forall item, on_song_clicked engine item w = (Ok tt, w)).
Proof.
  intros He. split; [| split; [| split]].
  - unfold prev_track, bind, read. rewrite He. reflexivity.
  - intros rr. unfold next_track, bind, read. rewrite He. reflexivity.
  - intros idx. apply play_at_index_out_of_range. rewrite He.
    unfold len. cbn. lia.
  - intros item. unfold on_song_clicked.
    destruct (data item) as [[| c p] |]; try reflexivity.
    unfold bind, read. rewrite He. reflexivity.
Qed.

(** X15: the end-of-track detector does nothing unless the duration is
    known, the position is within 200 ms of the end and the player plays;
    when it fires it acts as Next, so at the last track with shuffle and
    repeat off it loads and plays the last track again. *)
Theorem track_end_detector_acts_as_next (randrange : Z -> Z) (w : Window) :
  (duration (player w) <= 0 \/
   position (player w) < Z.max 0 (duration (player w) - 200) \/
   playbackState (player w) <> PlayingState ->
   _detect_track_end_and_advance engine randrange w = (Ok tt, w)) /\
  (0 < duration (player w) ->
   Z.max 0 (duration (player w) - 200) <= position (player w) ->
   playbackState (player w) = PlayingState ->
   _detect_track_end_and_advance engine randrange w =
   next_track engine randrange w /\
   (shuffle_btn w = false -> repeat_btn w = false ->
    current_playlist w <> [] ->
    current_index w = len (current_playlist w) - 1 ->
    exists fp,
      getitem (current_playlist w) (current_index w) = Ok fp /\
      _detect_track_end_and_advance engine randrange w =
      (Ok tt, played engine (current_index w) fp w))).
Proof.
  split.
  - intros H. unfold _detect_track_end_and_advance, bind, read.
    destruct (duration (player w) <=? 0) eqn:Hd; [reflexivity |].
    apply Z.leb_gt in Hd.
    destruct (position (player w) >=? Z.max 0 (duration (player w) - 200)) eqn:Hp;
      [| reflexivity].
    destruct H as [H | [H | H]]; try lia.
    destruct (playbackState (player w)); try reflexivity. congruence.
  - intros Hd Hp Hs.
    assert (Hrun : _detect_track_end_and_advance engine randrange w =
                   next_track engine randrange w).
    { unfold _detect_track_end_and_advance, bind, read.
      replace (duration (player w) <=? 0) with false
        by (symmetry; apply Z.leb_gt; lia).
      replace (position (player w) >=? Z.max 0 (duration (player w) - 200))
        with true by (symmetry; apply Z.geb_le; lia).
      rewrite Hs. reflexivity. }
    split; [exact Hrun |].
    intros Hsh Hrep Hne Hlast. pose proof (nonempty_len _ Hne) as Hlen.
    destruct (play_at_index_in_range engine (current_index w) w ltac:(lia))
      as (fp & Hfp & Hplay).
    exists fp. split; [exact Hfp |].
    rewrite Hrun, next_track_run, Hsh, Hrep by assumption.
    replace (current_index w + 1 >=? len (current_playlist w)) with true
      by (symmetry; apply Z.geb_le; lia).
    rewrite <- Hlast. exact Hplay.
Qed.

End Buttons.

(** * The further properties at work *)

Lemma abc_is_valid : index_valid abc.
Proof. right. vm_compute. split; [discriminate | reflexivity]. Qed.

Lemma current_index_stays_valid_witness :
  index_valid
    (run demo_engine
       [next_btn_clicked (fun _ => 0); tree_clicked "/empty" (Ok []);
        prev_btn_clicked; play_btn_clicked; tree_clicked "/gone" (Raise OSError);
        next_btn_clicked (fun _ => 0); tree_clicked "/music" (Ok abc_listing);
        song_list_itemClicked (item_of {| path_str := "/music/C.flac";
                                          path_name := "C.flac";
                                          path_suffix := ".flac";
                                          path_is_file := true |})]
       abc).
Proof. apply current_index_stays_valid. exact abc_is_valid. Defined.

Lemma quiet_events_send_no_command_witness :
  player_calls
    (run demo_engine
       [player_positionChanged 5000; ui_timer_timeout;
        seek_slider_sliderPressed; seek_slider_sliderMoved 300;
        vol_slider_valueChanged 20; player_durationChanged 180000;
        tree_clicked "/music" (Ok abc_listing);
        tree_clicked "/gone" (Raise OSError)]
       (idle_at 0)) = player_calls (idle_at 0).
Proof. apply quiet_events_send_no_command. reflexivity. Defined.

Lemma playlist_changes_only_on_load_witness :
  current_playlist (step demo_engine abc (next_btn_clicked (fun _ => 0))) =
  current_playlist abc.
Proof.
  apply (playlist_changes_only_on_load demo_engine
           (next_btn_clicked (fun _ => 0)) abc).
  reflexivity.
Defined.

Lemma song_click_plays_the_clicked_path_witness :
  exists i,
    index (current_playlist abc) "/music/B.MP3" = Ok i /\
    on_song_clicked demo_engine {| text := "B.MP3"; data := Some "/music/B.MP3" |}
      abc = (Ok tt, played demo_engine i "/music/B.MP3" abc).
Proof.
  destruct (song_click_plays_the_clicked_path demo_engine
              {| text := "B.MP3"; data := Some "/music/B.MP3" |}
              "/music/B.MP3" abc)
    as (i & Hi & _ & Hrun & _).
  - reflexivity.
  - discriminate.
  - vm_compute. right. left. reflexivity.
  - exists i. split; [exact Hi | exact Hrun].
Defined.

Lemma song_click_elsewhere_does_nothing_witness :
  on_song_clicked demo_engine placeholder_item abc = (Ok tt, abc) /\
  on_song_clicked demo_engine {| text := "x"; data := Some "/other/x.mp3" |} abc
  = (Ok tt, abc).
Proof.
  split; apply song_click_elsewhere_does_nothing.
  - left. reflexivity.
  - right. right. exists "/other/x.mp3". split; [reflexivity |].
    vm_compute. intros [H | [H | [H | []]]]; discriminate.
Defined.

Lemma song_list_after_load_directory_witness :
  let f := {| path_str := "/music/C.flac"; path_name := "C.flac";
              path_suffix := ".flac"; path_is_file := true |} in
  current_index
    (exec (on_song_clicked demo_engine (item_of f))
       (exec (load_directory "/music" (Ok abc_listing)) initial)) = 2 /\
  load_directory "/gone" (Raise OSError) abc =
  (Raise OSError, exec (load_directory "/gone" (Raise OSError)) abc) /\
  items (song_list (exec (load_directory "/gone" (Raise OSError)) abc)) = [] /\
  current_playlist (exec (load_directory "/gone" (Raise OSError)) abc) =
  current_playlist abc.
Proof.
  intros f. split.
  - destruct (song_list_after_load_directory demo_engine "/music"
                (Ok abc_listing) initial) as [H _].
    destruct (H abc_listing eq_refl) as (_ & _ & _ & Hfull).
    destruct (Hfull ltac:(vm_compute; discriminate)) as (_ & _ & Hitem).
    destruct (Hitem 2%nat f eq_refl) as (_ & _ & Hclick).
    apply Hclick.
    + vm_compute. repeat constructor; cbn; intuition discriminate.
    + discriminate.
  - destruct (song_list_after_load_directory demo_engine "/gone"
                (Raise OSError) abc) as [_ H].
    destruct (H OSError eq_refl) as (Hrun & Hit & Hl & _).
    split; [exact Hrun |]. split; [exact Hit | exact Hl].
Defined.

Lemma play_pause_keeps_the_selection_witness :
  current_index (exec (play_pause demo_engine) (with_index 1 false false abc)) = 1.
Proof.
  destruct (play_pause_keeps_the_selection demo_engine
              (with_index 1 false false abc)) as (_ & _ & _ & H & _).
  - right. vm_compute. split; [discriminate | reflexivity].
  - rewrite H. reflexivity.
Defined.

Lemma next_and_prev_undo_each_other_witness :
  let w := with_index 2 true false abc in
  current_index
    (exec (prev_track demo_engine) (exec (next_track demo_engine (fun _ => 1)) w))
  = 2 /\
  current_index
    (exec (next_track demo_engine (fun _ => 1))
       (exec (prev_track demo_engine) (with_index 1 false false abc))) = 1.
Proof.
  intros w. split.
  - destruct (next_and_prev_undo_each_other demo_engine (fun _ => 1) w)
      as [H _];
      [reflexivity | vm_compute; split; [discriminate | reflexivity] |].
    rewrite H; [reflexivity | left; reflexivity].
  - destruct (next_and_prev_undo_each_other demo_engine (fun _ => 1)
                (with_index 1 false false abc)) as [_ H];
      [reflexivity | vm_compute; split; [discriminate | reflexivity] |].
    rewrite H; [reflexivity | right; reflexivity].
Defined.

Lemma empty_playlist_navigation_does_nothing_witness :
  prev_track demo_engine initial = (Ok tt, initial) /\
  next_track demo_engine (fun _ => 0) initial = (Ok tt, initial).
Proof.
  destruct (empty_playlist_navigation_does_nothing demo_engine initial eq_refl)
    as (H1 & H2 & _).
  split; [exact H1 | apply H2].
Defined.

Lemma track_end_detector_acts_as_next_witness :
  exists fp,
    getitem (current_playlist near_the_end) 2 = Ok fp /\
    _detect_track_end_and_advance demo_engine (fun _ => 0) near_the_end =
    (Ok tt, played demo_engine 2 fp near_the_end).
Proof.
  destruct (track_end_detector_acts_as_next demo_engine (fun _ => 0) near_the_end)
    as [_ H].
  destruct H as [_ H]; [reflexivity | vm_compute; discriminate | reflexivity |].
  apply H; [reflexivity | reflexivity | discriminate | reflexivity].
Defined.

Lemma format_ms_shows_exact_minutes_and_seconds_witness :
  format_ms 3599999 = Ok "59:59" /\
  on_duration_changed (-1) abc = (Ok tt, set_duration_label "--:--" abc).
Proof.
  split.
  - destruct (format_ms_shows_exact_minutes_and_seconds 3599999 abc)
      as (H & _); [reflexivity |].
    rewrite H. vm_compute. reflexivity.
  - destruct (format_ms_shows_exact_minutes_and_seconds (-1) abc)
      as (_ & _ & _ & H); [reflexivity |].
    rewrite H. reflexivity.
Defined.

Lemma position_notification_moves_the_display_witness :
  exists val,
    Py.int_scale 180000 180000 1000 = Ok val /\ val = 1000 /\
    on_position_changed 180000 (idle_at 0) =
    (Ok tt, set_time_label (mmss 180000) (set_seek_slider val (idle_at 0))).
Proof.
  destruct (position_notification_moves_the_display 180000 (idle_at 0))
    as [H _]; [reflexivity | reflexivity | reflexivity |].
  destruct H as (val & Hval & _ & _ & Hend & Hrun);
    [reflexivity | vm_compute; split; discriminate |].
  exists val. split; [exact Hval |]. split; [apply Hend; reflexivity | exact Hrun].
Defined.

Lemma periodic_update_repeats_the_notification_witness :
  exists w1,
    on_position_changed 45000 (idle_at 45000) = (Ok tt, w1) /\
    _periodic_update (idle_at 45000) =
    (Ok tt, set_duration_label (mmss 180000) w1).
Proof.
  apply (periodic_update_repeats_the_notification (idle_at 45000));
    try reflexivity.
  right. vm_compute. split; discriminate.
Defined.

Lemma release_seeks_inside_the_track_witness :
  exists ms,
    _seeker_released demo_engine (dragging 1000 180000) =
    (Ok tt, set_is_seeking false
              (sent demo_engine (player_setPosition ms) (dragging 1000 180000))) /\
    ms = 180000.
Proof.
  destruct (release_seeks_inside_the_track demo_engine (dragging 1000 180000))
    as (ms & Hrun & _ & _ & Hend);
    [vm_compute; split; discriminate | split; reflexivity |].
  exists ms. split; [exact Hrun | apply Hend; reflexivity].
Defined.

Lemma drag_previews_the_seek_target_witness :
  exists ms,
    Py.int_scale 250 1000 180000 = Ok ms /\
    time_label
      (step demo_engine
         (step demo_engine (dragging 0 180000) (seek_slider_sliderMoved 250))
         seek_slider_sliderReleased) = mmss ms.
Proof.
  destruct (drag_previews_the_seek_target demo_engine 250 (dragging 0 180000))
    as (ms & Hms & _ & _ & _ & Hlabel & _);
    [vm_compute; split; discriminate | split; reflexivity |].
  exists ms. split; [exact Hms | exact Hlabel].
Defined.
